(** * mcp-neo4j: the schema synthesizer, the parameter walk and the driver handle

    A shallow embedding of [src/neo4j-client.ts] (and of the two tool
    handlers that call it) together with the properties the specification
    states about them.

    Conventions of the embedding:
    - a JavaScript array is a [list], in index order;
    - a JavaScript object used as a dictionary is a [gmap string _] holding
      its own properties; a [Set] that is only queried with [has] is a
      [gset string]; a [Set] that is spread back into an array is the list
      of its elements in insertion order ([set_of]);
    - the object handed to [JSON.stringify] stands for the JSON text;
    - code that throws, or that talks to the driver library, lives in a
      state-and-exception monad over a [World]. *)

From Stdlib Require Import QArith Qround.
From stdpp Require Import gmap strings list fin_maps.

Local Open Scope Z_scope.

#[local] Set Warnings "-register-all".

(** ** Data model *)

(** [{ type: string, count: number }], an entry of [nodeTypes] or of
    [relationshipTypes]. *)
Record TypeCount := mkTypeCount { type : string; count : Z }.

#[global] Instance TypeCount_eq_dec : EqDecision TypeCount.
Proof. solve_decision. Defined.

(** [{ [key: string]: string[] }]. *)
Abbreviation PropertyIndex := (gmap string (list string)).

(** The object passed to [JSON.stringify]; [domains] is [None] when the
    object literal has no such key. *)
Record SchemaOutput := mkSchemaOutput {
  domains : option (list string);
  nodeTypes : list TypeCount;
  nodeProperties : PropertyIndex;
  relationshipTypes : list TypeCount;
  relationshipProperties : PropertyIndex
}.

(** The argument [domain?: string | string[]]. *)
Inductive DomainArg :=
  | DomUndefined
  | DomString (s : string)
  | DomArray (l : list string).

(** ** The static taxonomy *)

Definition DOMAIN_NODE_TYPES : gmap string (list string) := list_to_map [
  ("code", [
    "Codebase"; "Package"; "Directory"; "File"; "Module"; "Namespace"; "Class";
    "Interface"; "Enum"; "TypeAlias"; "Function"; "Method"; "Constructor";
    "Property"; "Variable"; "Parameter"; "JsxElement"; "JsxAttribute"; "Test";
    "Component"; "Dependency"; "TypeDefinition"; "ASTNodeInfo"; "InterfaceProperty";
    "VueComponent"; "ComponentTemplate"; "ComponentScript"; "ComponentStyle";
    "Prop"; "Emit"; "ReactiveState"; "Composable"; "SassVariable"; "SassMixin"; "SassModule"
  ]);
  ("mind", [
    "Hypothesis"; "Reflection"; "Insight"; "Question"; "Decision"; "Pattern";
    "Task"; "Subtask"; "Agent"; "Verification"; "Result"; "Orientation"
  ]);
  ("crypto", [
    "Layer0"; "Layer1"; "Layer2"; "Layer3"; "Token"; "InteroperabilitySolution"; "Organization";
    "Event"; "Person"; "DApp"; "Protocol"; "Validator"; "GovernanceStructure";
    "RegulatoryApproach"; "TechnicalArchitecture"; "UserDemographic";
    "L2Sequencer"; "L2Validator"; "L2DApp"; "L2Bridge"; "L2SecurityIncident"
  ]);
  ("media", [
    "Artist"; "Album"; "Song"; "Tour"; "Residency"; "Award"; "Media"; "RecordLabel";
    "Event"; "Organization"; "Product"; "Location"; "Genre"; "LyricSection";
    "Annotation"; "Theme"; "LinguisticDevice"; "Source"
  ])
].

Definition DOMAIN_RELATIONSHIP_TYPES : gmap string (list string) := list_to_map [
  ("code", [
    "IMPORTS"; "IMPORTS_FROM_PACKAGE"; "IMPORTS_TYPES"; "IMPORTS_TYPES_FROM_PACKAGE";
    "EXPORTS_LOCAL"; "EXPORTS_DEFAULT"; "REEXPORTS"; "REEXPORTS_FROM_PACKAGE";
    "REEXPORTS_ALL"; "EXTENDS"; "INTERFACE_EXTENDS"; "IMPLEMENTS"; "CALLS";
    "CONTAINS"; "HAS_METHOD"; "HAS_PARAMETER"; "HAS_PROPERTY"; "REFERENCES_TYPE";
    "REFERENCES_VARIABLE"; "DEPENDS_ON"; "IS_DECORATED_BY"; "TESTS"; "RENDERS";
    "USES_HOOK"; "AST_PARENT_CHILD"; "DEFINES_VARIABLE"; "DEFINES_FUNCTION";
    "DEFINES_INTERFACE"; "DEFINES_CLASS"; "DEFINES_TYPE_ALIAS"; "DEFINES_ENUM";
    "DEFINES_NAMESPACE"; "DEFINES_MODULE"; "DEFINES_COMPONENT"; "DEFINES_VUE_COMPONENT";
    "PROVIDES_PROPS"; "LISTENS_TO"; "USES_SLOT"; "USES_COMPOSABLE"; "IMPORTS_AUTO";
    "REGISTERS_AUTO"; "IMPORTS_SASS"; "USES_VARIABLE"; "INCLUDES_MIXIN"
  ]);
  ("mind", [
    "SUGGESTS"; "BASED_ON"; "LEADS_TO"; "ANSWERS"; "CONTRADICTS"; "REFINES";
    "IDENTIFIES"; "EVOLVES_TO"; "APPLIES_TO"; "IMPLEMENTS_DECISION"; "ADDRESSES";
    "RESOLVES"; "APPLIES"; "MODIFIES"; "TASK_DEPENDS_ON"; "TASK_BLOCKED_BY";
    "DECOMPOSES_TO"; "EXECUTED_BY"; "VERIFIED_BY"
  ]);
  ("crypto", [
    "BUILDS_ON"; "CONNECTS"; "ISSUES"; "DEVELOPS"; "SUPPORTS"; "BRIDGES"; "PARTNERS_WITH";
    "COMPETES_WITH"; "FORKED_FROM"; "INVESTED_IN"; "GOVERNS"; "INFLUENCED_BY";
    "PARTICIPATES_IN_GOVERNANCE"; "CONTRIBUTES_REVENUE_TO"; "HAS_REGULATORY_APPROACH";
    "HAS_TECHNICAL_ARCHITECTURE"; "HAS_USER_DEMOGRAPHIC"; "PROVIDES_TECHNOLOGY"; "RELATES_TO";
    "SECURES"; "L2_BRIDGES"; "HOSTS"; "AUDITS"; "UPGRADES"
  ]);
  ("media", [
    "BORN_IN"; "HAS_FAMILY_RELATIONSHIP"; "RELEASED"; "CONTAINS"; "HEADLINED";
    "SUPPORTED"; "COLLABORATED_ON"; "FEATURING"; "WROTE"; "PRODUCED";
    "SIGNED_WITH"; "RELEASED_BY"; "RECEIVED"; "ACTED_IN"; "VOICED_IN";
    "APPEARED_IN"; "JUDGED"; "HOSTED"; "PERFORMED_AT"; "INFLUENCED_BY";
    "HAS_GENRE"; "ENDORSED"; "LAUNCHED"; "FOUNDED"; "SUPPORTS";
    "AMBASSADOR_FOR"; "HELD_IN"; "MUSIC_VIDEO_FOR"; "HAS_LYRICS";
    "IS_ANNOTATED_BY"; "REFERENCES_SOURCE"; "PROVIDED_BY_USER";
    "EXPLORES_THEME"; "IDENTIFIES_THEME"; "EMPLOYS_DEVICE"; "IDENTIFIES_DEVICE"
  ])
].

(** The array literal [['code', 'mind', 'crypto', 'media']] of line 242. *)
Definition KNOWN_DOMAINS : list string := ["code"; "mind"; "crypto"; "media"].

(** ** Arrays and sets *)

(** [[...new Set(l)]]: a [Set] keeps one copy of each element, in the order
    of first insertion, and spreads in that order. *)
Definition set_add (acc : list string) (x : string) : list string :=
  if decide (x ∈ acc) then acc else acc ++ [x].

Definition set_of (l : list string) : list string := fold_left set_add l [].

(** ** Domain filtering (lines 237-340) *)

(** Lines 272-284 and 286-298: the live entries whose name the taxonomy
    lists, then one entry of count 0 for each taxonomy name the store
    does not have. *)
Definition push_missing (existing : gset string) (acc : list TypeCount) (t : string)
    : list TypeCount :=
  if decide (t ∈ existing) then acc else acc ++ [mkTypeCount t 0].

Definition complete_types (live : list TypeCount) (allTypes : list string)
    : list TypeCount :=
  let existing : gset string := list_to_set (type <$> live) in
  let complete := filter (λ nt, type nt ∈ allTypes) live in
  fold_left (push_missing existing) allTypes complete.

(** Lines 300-309 and 311-320. An array is truthy even when empty, so the
    test [if (nodeProperties[nodeType])] asks whether the key is there; no
    taxonomy name is an inherited property ([taxonomy_names_own]), so the
    key is there exactly when it is an own property. *)
Definition put_properties (props : PropertyIndex) (acc : PropertyIndex) (t : string)
    : PropertyIndex :=
  match props !! t with
  | Some ps => <[t := ps]> acc
  | None => <[t := []]> acc
  end.

Definition filter_properties (props : PropertyIndex) (allTypes : list string)
    : PropertyIndex :=
  fold_left (put_properties props) allTypes ∅.

(** Lines 255-270: the names of all the valid domains, concatenated in
    request order, then deduplicated. Only keys of [KNOWN_DOMAINS] are
    looked up, and the tables have them all. *)
Definition gather (table : gmap string (list string)) (validDomains : list string)
    : list string :=
  set_of (fold_left (λ acc d, acc ++ table !!! d) validDomains []).

(** [if (domain)]: [undefined] and the empty string are falsy, every
    array is truthy. *)
Definition truthy (domain : DomainArg) : bool :=
  match domain with
  | DomUndefined => false
  | DomString s => negb (String.eqb s "")
  | DomArray _ => true
  end.

(** [Array.isArray(domain) ? domain : [domain]] *)
Definition as_array (domain : DomainArg) : list string :=
  match domain with
  | DomUndefined => []
  | DomString s => [s]
  | DomArray l => l
  end.

Definition valid_domains (domain : DomainArg) : list string :=
  filter (λ d, d ∈ KNOWN_DOMAINS) (as_array domain).

(** Lines 237-340, the part of [getNeo4jSchema] after the four query
    results have been normalised: from the live data and the argument to
    the object that is serialised. *)
Definition synthesize (liveNodeTypes : list TypeCount) (liveNodeProperties : PropertyIndex)
    (liveRelationshipTypes : list TypeCount) (liveRelationshipProperties : PropertyIndex)
    (domain : DomainArg) : SchemaOutput :=
  let full :=
    {| domains := None;
       nodeTypes := liveNodeTypes;
       nodeProperties := liveNodeProperties;
       relationshipTypes := liveRelationshipTypes;
       relationshipProperties := liveRelationshipProperties |} in
  if truthy domain then
    let validDomains := valid_domains domain in
    if (length validDomains =? 0)%nat then full
    else
      let allDomainNodeTypes := gather DOMAIN_NODE_TYPES validDomains in
      let allDomainRelationshipTypes := gather DOMAIN_RELATIONSHIP_TYPES validDomains in
      {| domains := Some validDomains;
         nodeTypes := complete_types liveNodeTypes allDomainNodeTypes;
         nodeProperties := filter_properties liveNodeProperties allDomainNodeTypes;
         relationshipTypes := complete_types liveRelationshipTypes allDomainRelationshipTypes;
         relationshipProperties :=
           filter_properties liveRelationshipProperties allDomainRelationshipTypes |}
  else full.

(** The names of a [TypeCount] list, as a set. *)
Definition names (l : list TypeCount) : gset string := list_to_set (type <$> l).

(** The entries of a [TypeCount] list that carry a given name. *)
Definition entries_named (n : string) (l : list TypeCount) : list TypeCount :=
  filter (λ nt, type nt = n) l.

(** No orphans in either direction, for nodes and for relationships. *)
Definition orphan_free (out : SchemaOutput) : Prop :=
  names (nodeTypes out) = dom (nodeProperties out) ∧
  names (relationshipTypes out) = dom (relationshipProperties out).

(** What the specification calls the union of several name lists with
    duplicates removed and first-occurrence order preserved: [u] has no
    repetition, holds exactly the names of [parts], and each name stands
    in [u] right after the distinct names that come before its first
    occurrence in the concatenation of [parts]. *)
Definition first_occurrence_union (parts : list (list string)) (u : list string) : Prop :=
  NoDup u ∧
  (∀ x, x ∈ u ↔ x ∈ concat parts) ∧
  (∀ l1 x l2, u = l1 ++ x :: l2 →
     ∃ p q, concat parts = p ++ x :: q ∧ (x ∉ p) ∧ (∀ y, y ∈ l1 ↔ y ∈ p)).

(** ** Query parameters (lines 46-72) *)

(** A JavaScript number. Every finite double is a rational; the sign of
    zero is not represented. *)
Inductive number :=
  | Finite (q : Q)
  | NaN
  | PosInfinity
  | NegInfinity.

(** [Math.floor] *)
Definition Math_floor (n : number) : number :=
  match n with
  | Finite q => Finite (inject_Z (Qfloor q))
  | _ => n
  end.

(** The parameter values a caller sends: parsed JSON. An object is the list
    of its own entries in [Object.entries] order, under distinct keys. *)
Inductive Json :=
  | JNull
  | JBool (b : bool)
  | JNumber (n : number)
  | JString (s : string)
  | JArray (items : list Json)
  | JObject (entries : list (string * Json)).

(** The prototype of an object: the one every object literal has
    ([Object.prototype]), none at all, or an object put in its place. *)
Inductive Prototype (V : Type) :=
  | OrdinaryPrototype
  | NullPrototype
  | ReplacedPrototype (object : V).

Arguments OrdinaryPrototype {V}.
Arguments NullPrototype {V}.
Arguments ReplacedPrototype {V} object.

(** The values submitted to the store: [VNumber] is a JavaScript number,
    which the driver sends as a float, [VInt z] is the Integer object that
    [neo4j.int] returned, holding the 64-bit integer [z], and an object is
    its prototype and the list of its own entries. *)
Inductive Value :=
  | VNull
  | VBool (b : bool)
  | VNumber (n : number)
  | VInt (z : Z)
  | VString (s : string)
  | VArray (items : list Value)
  | VObject (prototype : Prototype Value) (entries : list (string * Value)).

(** A value that is passed through as it is. [JSON.parse] defines every
    key, [__proto__] included, as an own property of an ordinary object. *)
Fixpoint inject (j : Json) : Value :=
  match j with
  | JNull => VNull
  | JBool b => VBool b
  | JNumber n => VNumber n
  | JString s => VString s
  | JArray items => VArray (map inject items)
  | JObject entries => VObject OrdinaryPrototype (map (λ kv, (kv.1, inject kv.2)) entries)
  end.

(** The bounds of the driver's Integer, [Integer.MIN_VALUE] and
    [Integer.MAX_VALUE]. *)
Definition MIN_VALUE : Z := - 2 ^ 63.
Definition MAX_VALUE : Z := 2 ^ 63 - 1.

(** [neo4j.int] on a number, which is the driver's [Integer.fromNumber]:
    zero for NaN and the infinities, the bounds from [value <= -2^63] and
    from [value + 1 >= 2^63] on, and otherwise the integer part. *)
Definition neo4j_int (n : number) : Z :=
  match n with
  | Finite q =>
      if Qle_bool q (inject_Z (- 2 ^ 63)) then MIN_VALUE
      else if Qle_bool (inject_Z (2 ^ 63)) (q + 1) then MAX_VALUE
      else Z.quot (Qnum q) (Zpos (Qden q))
  | _ => 0
  end.

(** [obj.__proto__ = v] on an object that has the ordinary prototype: the
    accessor of [Object.prototype] puts an object, or null, in the place
    of the prototype and ignores any other value. *)
Definition set_prototype (v : Value) : Prototype Value :=
  match v with
  | VNull => NullPrototype
  | VBool _ | VNumber _ | VString _ => OrdinaryPrototype
  | _ => ReplacedPrototype v
  end.

(** [processed[key] = f value] for each entry in turn, on a fresh object
    literal; the keys of [entries] are distinct, as [Object.entries] gives
    them. The assignment to the key [__proto__] creates no own property:
    it goes through the accessor. *)
Definition assign_entries (f : Json → Value) (entries : list (string * Json)) : Value :=
  let assigned := map (λ kv, (kv.1, f kv.2)) entries in
  VObject
    (match list_find (λ kv, kv.1 = "__proto__") assigned with
     | Some (_, (_, v)) => set_prototype v
     | None => OrdinaryPrototype
     end)
    (filter (λ kv, kv.1 ≠ "__proto__") assigned).

(** The callback of [value.map] on line 62. *)
Definition process_item (item : Json) : Value :=
  match item with
  | JNumber n => VInt (neo4j_int (Math_floor n))
  | _ => inject item
  end.

(** The four branches of the loop body, lines 54-68. *)
Fixpoint process_value (value : Json) : Value :=
  match value with
  | JNumber n => VInt (neo4j_int (Math_floor n))
  | JObject entries => assign_entries process_value entries
  | JArray items => VArray (map process_item items)
  | _ => inject value
  end.

(** Lines 50-72: the object [processed] that is returned. *)
Definition processParams (params : list (string * Json)) : Value :=
  assign_entries process_value params.

(** What the specification asks of the parameter walk: every number, at any
    depth inside objects and arrays, becomes the store's integer of its
    floor, and everything else stays as it is. *)
Fixpoint normalize (j : Json) : Value :=
  match j with
  | JNumber n => VInt (neo4j_int (Math_floor n))
  | JArray items => VArray (map normalize items)
  | JObject entries => VObject OrdinaryPrototype (map (λ kv, (kv.1, normalize kv.2)) entries)
  | _ => inject j
  end.

Definition normalize_params (params : list (string * Json)) : Value :=
  VObject OrdinaryPrototype (map (λ kv, (kv.1, normalize kv.2)) params).

(** Arrays whose items are all scalars, at every level of nested objects:
    the shape of parameters on which the walk of the source is complete. *)
Definition scalar (j : Json) : bool :=
  match j with
  | JArray _ | JObject _ => false
  | _ => true
  end.

Fixpoint flat_arrays (j : Json) : bool :=
  match j with
  | JArray items => forallb scalar items
  | JObject entries => forallb (λ kv, flat_arrays kv.2) entries
  | _ => true
  end.

(** No entry is named [__proto__], at any level of nested objects. *)
Fixpoint plain_keys (j : Json) : bool :=
  match j with
  | JObject entries =>
      forallb (λ kv, negb (String.eqb kv.1 "__proto__") && plain_keys kv.2) entries
  | _ => true
  end.

(** No number occurs in the value, at any depth. *)
Fixpoint number_free (j : Json) : bool :=
  match j with
  | JNumber _ => false
  | JArray items => forallb number_free items
  | JObject entries => forallb (λ kv, number_free kv.2) entries
  | _ => true
  end.

(** ** Thrown values *)

(** What a [catch (error: unknown)] clause can receive: an [Error] with
    its message, or any other value with its [String(...)] rendering. *)
Inductive Thrown :=
  | Error (message : string)
  | NonError (rendering : string).

(** [error instanceof Error ? error.message : String(error)] *)
Definition message_of (error : Thrown) : string :=
  match error with
  | Error message => message
  | NonError rendering => rendering
  end.

(** ** Normalising the introspection rows (lines 207-235) *)

(** [records.map(record => ({ type: ..., count: ....toNumber() }))] *)
Definition to_type_counts (records : list (string * Z)) : list TypeCount :=
  map (λ r, mkTypeCount r.1 r.2) records.

(** The property names every object literal inherits from
    [Object.prototype]. Reading one of them from [{}] yields a function
    (or the prototype itself), which is truthy and cannot be spread. *)
Definition OBJECT_PROTOTYPE_KEYS : list string :=
  ["constructor"; "hasOwnProperty"; "isPrototypeOf"; "propertyIsEnumerable";
   "toLocaleString"; "toString"; "valueOf"; "__proto__";
   "__defineGetter__"; "__defineSetter__"; "__lookupGetter__"; "__lookupSetter__"].

(** One turn of the loop of lines 213-220 (and 228-235). [what] is the
    source text of the spread operand, which the engine quotes in its
    [TypeError]. *)
Definition collect_step (what : string) (acc : Thrown + PropertyIndex)
    (record : string * list string) : Thrown + PropertyIndex :=
  match acc with
  | inl error => inl error
  | inr index =>
      let '(label, properties) := record in
      match index !! label with
      | Some old => inr (<[label := set_of (old ++ properties)]> index)
      | None =>
          if decide (label ∈ OBJECT_PROTOTYPE_KEYS)
          then inl (Error (what +:+ " is not iterable"))
          else inr (<[label := set_of ([] ++ properties)]> index)
      end
  end.

Definition collect_properties (what : string) (records : list (string * list string))
    : Thrown + PropertyIndex :=
  fold_left (collect_step what) records (inr ∅).

(** ** The driver library and the process state *)

(** The four fixed introspection queries of [getNeo4jSchema]. *)
Inductive Introspection :=
  | NodeCounts              (* RETURN label, count( * ) as count ORDER BY count DESC *)
  | NodeProperties          (* RETURN label, collect(DISTINCT key) as properties *)
  | RelationshipCounts      (* RETURN relType, count( * ) as count ORDER BY count DESC *)
  | RelationshipProperties. (* RETURN relType, collect(DISTINCT key) as properties *)

(** A result row of a user query, after [record.toObject()]. *)
Abbreviation Row := (list (string * Value)).

(** What the program does not define itself: the [neo4j-driver] package in
    front of a store of state [Store], and [JSON.stringify]. Driver and
    session objects are named by the number they were created under. Each
    call may throw ([Some error], or [inl error]) and may change the store.
    [session.run] is given at the three result shapes the program reads:
    the RETURN clause of an introspection query fixes its columns. *)
Class Library (Store : Type) := {
  neo4j_driver : string → string → string → option Thrown;
  driver_close : nat → Store → option Thrown * Store;
  driver_verifyConnectivity : nat → Store → option Thrown * Store;
  driver_session : nat → Store → option Thrown * Store;
  session_run_counts : nat → Introspection → Store → (Thrown + list (string * Z)) * Store;
  session_run_properties :
    nat → Introspection → Store → (Thrown + list (string * list string)) * Store;
  session_run : nat → string → Value → Store → (Thrown + list Row) * Store;
  session_close : nat → Store → option Thrown * Store;
  stringify_schema : SchemaOutput → string;
  stringify_rows : list Row → string
}.

(** [process.env], at the three names the program reads. *)
Record Env := mkEnv {
  NEO4J_URI : option string;
  NEO4J_USER : option string;
  NEO4J_PASSWORD : option string
}.

(** The calls that create or dispose of a library object, as they happen. *)
Inductive Event :=
  | NewDriver (h : nat)
  | CloseDriver (h : nat) (resolved : bool)
  | NewSession (h sid : nat)
  | CloseSession (sid : nat).

#[global] Instance Event_eq_dec : EqDecision Event.
Proof. solve_decision. Defined.

(** [!v] is false: the variable is set and not empty. *)
Definition present (v : option string) : bool :=
  match v with
  | Some s => negb (String.eqb s "")
  | None => false
  end.

Definition MISSING_DETAILS : string :=
  "Missing Neo4j connection details in environment variables (NEO4J_URI, NEO4J_USER, NEO4J_PASSWORD)".

(** The result of a tool handler: [{ content: [{ type: "text", text }] }],
    with [isError: true] on the failure path only. *)
Record ToolResult := mkToolResult { text : string; isError : bool }.

Section Client.
Context {Store : Type} `{!Library Store}.

(** The process: its environment, the module variable [driver], the store
    behind the library, how many driver and session objects were ever
    created, and the library events so far, newest first. *)
Record World := mkWorld {
  env : Env;
  driver : option nat;
  store : Store;
  drivers : nat;
  sessions : nat;
  events : list Event
}.

(** A computation that may change the world and either returns or throws. *)
Definition M (A : Type) : Type := World → (Thrown + A) * World.

#[global] Instance M_ret : MRet M := λ A x w, (inr x, w).

#[global] Instance M_bind : MBind M := λ A B f m w,
  match m w with
  | (inl error, w') => (inl error, w')
  | (inr x, w') => f x w'
  end.

Definition throw {A} (error : Thrown) : M A := λ w, (inl error, w).

(** [try { body } catch (error) { handler }] *)
Definition try_catch {A} (body : M A) (handler : Thrown → M A) : M A := λ w,
  match body w with
  | (inl error, w') => handler error w'
  | (inr x, w') => (inr x, w')
  end.

(** [try { body } finally { final }]: [final] runs on both paths, and what
    it throws replaces the outcome of [body]. *)
Definition try_finally {A} (body : M A) (final : M unit) : M A := λ w,
  let '(outcome, w') := body w in
  match final w' with
  | (inl error, w'') => (inl error, w'')
  | (inr _, w'') => (outcome, w'')
  end.

(** A call into the library that returns nothing. *)
Definition call (f : Store → option Thrown * Store) (ev : list Event) : M unit := λ w,
  let '(outcome, st) := f (store w) in
  let w' := mkWorld (env w) (driver w) st (drivers w) (sessions w) (ev ++ events w) in
  match outcome with
  | Some error => (inl error, w')
  | None => (inr (), w')
  end.

(** A call into the library that returns a value. *)
Definition ask {A} (f : Store → (Thrown + A) * Store) : M A := λ w,
  let '(outcome, st) := f (store w) in
  (outcome, mkWorld (env w) (driver w) st (drivers w) (sessions w) (events w)).

(** Lines 10-23. *)
Definition getDriver : M nat := λ w,
  let NEO4J_URI_ENV := NEO4J_URI (env w) in
  let NEO4J_USER_ENV := NEO4J_USER (env w) in
  let NEO4J_PASSWORD_ENV := NEO4J_PASSWORD (env w) in
  if negb (present NEO4J_URI_ENV) || negb (present NEO4J_USER_ENV)
     || negb (present NEO4J_PASSWORD_ENV)
  then (inl (Error MISSING_DETAILS), w)
  else
    match driver w with
    | Some h => (inr h, w)
    | None =>
        match neo4j_driver (default "" NEO4J_URI_ENV) (default "" NEO4J_USER_ENV)
                (default "" NEO4J_PASSWORD_ENV) with
        | Some error => (inl error, w)
        | None =>
            let h := drivers w in
            (inr h, mkWorld (env w) (Some h) (store w) (S h) (sessions w)
                      (NewDriver h :: events w))
        end
    end.

(** Lines 25-31. *)
Definition closeDriver : M unit := λ w,
  match driver w with
  | Some h =>
      let '(outcome, st) := driver_close h (store w) in
      match outcome with
      | Some error =>
          (inl error, mkWorld (env w) (Some h) st (drivers w) (sessions w)
                        (CloseDriver h false :: events w))
      | None =>
          (inr (), mkWorld (env w) None st (drivers w) (sessions w)
                     (CloseDriver h true :: events w))
      end
  | None => (inr (), w)
  end.

(** Lines 33-44. *)
Definition checkNeo4jConnectivity : M bool :=
  currentDriver ← getDriver;
  try_catch
    (call (driver_verifyConnectivity currentDriver) [];; mret true)
    (λ error, throw (Error ("Neo4j connection failed: " +:+ message_of error))).

(** [session = currentDriver.session()] *)
Definition open_session (currentDriver : nat) : M nat := λ w,
  let '(outcome, st) := driver_session currentDriver (store w) in
  match outcome with
  | Some error =>
      (inl error, mkWorld (env w) (driver w) st (drivers w) (sessions w) (events w))
  | None =>
      let sid := sessions w in
      (inr sid, mkWorld (env w) (driver w) st (drivers w) (S sid)
                  (NewSession currentDriver sid :: events w))
  end.

(** The frame shared by [runCypherQuery] and [getNeo4jSchema]:
    [let session = null; try { session = currentDriver.session(); body }
     catch (error) { handler } finally { if (session) await session.close() }].
    The local [session] is null exactly until [session()] has returned, so
    the [finally] block closes the session on every path that opened one. *)
Definition with_session {A} (currentDriver : nat) (body : nat → M A)
    (handler : Thrown → M A) : M A := λ w,
  match open_session currentDriver w with
  | (inl error, w') => handler error w'
  | (inr session, w') =>
      try_finally (try_catch (body session) handler)
        (call (session_close session) [CloseSession session]) w'
  end.

(** Lines 74-96. The result is the text [JSON.stringify(records, null, 2)]. *)
Definition runCypherQuery (query : string) (params : list (string * Json)) : M string :=
  currentDriver ← getDriver;
  let processedParams := processParams params in
  with_session currentDriver
    (λ session,
       records ← ask (session_run session query processedParams);
       mret (stringify_rows records))
    (λ error, throw (Error ("Failed to execute Cypher query: " +:+ message_of error))).

(** A pure step that may throw. *)
Definition lift {A} (r : Thrown + A) : M A := λ w, (r, w).

(** Lines 171-340: the body of the [try] block of [getNeo4jSchema], once
    the session is there. *)
Definition schema_body (domain : DomainArg) (session : nat) : M string :=
  nodeTypesResult ← ask (session_run_counts session NodeCounts);
  nodePropertiesResult ← ask (session_run_properties session NodeProperties);
  relationshipTypesResult ← ask (session_run_counts session RelationshipCounts);
  relationshipPropertiesResult ←
    ask (session_run_properties session RelationshipProperties);
  let nodeTypes := to_type_counts nodeTypesResult in
  nodeProperties ← lift (collect_properties "nodeProperties[label]" nodePropertiesResult);
  let relationshipTypes := to_type_counts relationshipTypesResult in
  relationshipProperties ←
    lift (collect_properties "relationshipProperties[relType]"
            relationshipPropertiesResult);
  mret (stringify_schema
          (synthesize nodeTypes nodeProperties relationshipTypes
             relationshipProperties domain)).

(** Lines 167-350. The result is the text [JSON.stringify(schemaOutput)]. *)
Definition getNeo4jSchema (domain : DomainArg) : M string :=
  currentDriver ← getDriver;
  with_session currentDriver (schema_body domain)
    (λ error, throw (Error ("Failed to fetch Neo4j schema: " +:+ message_of error))).

(** ** The two tools of the request router *)

(** The handler of [get_graph_schema]. *)
Definition get_graph_schema (domain : DomainArg) : M ToolResult :=
  try_catch
    (schemaJsonString ← getNeo4jSchema domain;
     mret (mkToolResult schemaJsonString false))
    (λ error, mret (mkToolResult ("Error getting schema: " +:+ message_of error) true)).

(** The handler of [run_cypher_query]; [params ?? {}]. *)
Definition run_cypher_query (query : string) (params : option (list (string * Json)))
    : M ToolResult :=
  try_catch
    (let queryParams := default [] params in
     resultJsonString ← runCypherQuery query queryParams;
     mret (mkToolResult resultJsonString false))
    (λ error, mret (mkToolResult ("Error running query: " +:+ message_of error) true)).

(** ** Runs of the process *)

(** The operations a run is made of. *)
Inductive Op :=
  | OpCheckConnectivity
  | OpGetSchema (domain : DomainArg)
  | OpRunQuery (query : string) (params : option (list (string * Json)))
  | OpCloseDriver.

Definition run_op (op : Op) (w : World) : World :=
  match op with
  | OpCheckConnectivity => (checkNeo4jConnectivity w).2
  | OpGetSchema domain => (get_graph_schema domain w).2
  | OpRunQuery query params => (run_cypher_query query params w).2
  | OpCloseDriver => (closeDriver w).2
  end.

(** The process starts with [driver = null] and no library object. *)
Definition initial (e : Env) (st : Store) : World := mkWorld e None st 0 0 [].

Inductive reachable : World → Prop :=
  | reachable_initial e st : reachable (initial e st)
  | reachable_step op w : reachable w → reachable (run_op op w).

(** The driver created last, read off the events. *)
Fixpoint last_created (evs : list Event) : option nat :=
  match evs with
  | [] => None
  | NewDriver h :: _ => Some h
  | _ :: evs => last_created evs
  end.

(** The handle variable is null, or it is the driver created last, and
    no [close()] of that driver has completed. *)
Definition handle_invariant (w : World) : Prop :=
  match driver w with
  | None => True
  | Some h => last_created (events w) = Some h ∧ CloseDriver h true ∉ events w
  end.

(** Every session opened among the events [evs] (newest first) has had
    [close()] called on it afterwards. *)
Definition sessions_released (evs : list Event) : Prop :=
  ∀ h sid later earlier,
    evs = later ++ NewSession h sid :: earlier → CloseSession sid ∈ later.

(** The three connection values are set and the library accepts them. *)
Definition configured (w : World) : Prop :=
  present (NEO4J_URI (env w)) = true ∧
  present (NEO4J_USER (env w)) = true ∧
  present (NEO4J_PASSWORD (env w)) = true ∧
  neo4j_driver (default "" (NEO4J_URI (env w))) (default "" (NEO4J_USER (env w)))
    (default "" (NEO4J_PASSWORD (env w))) = None.

(** A computation that touches nothing but the store. *)
Definition quiet {A} (m : M A) : Prop :=
  ∀ w, env (m w).2 = env w ∧ driver (m w).2 = driver w ∧
       drivers (m w).2 = drivers w ∧ events (m w).2 = events w.

(** The events of one use of a session: none, or an opening followed by
    the closing. *)
Definition session_trace (evs : list Event) : Prop :=
  evs = [] ∨ ∃ h sid, evs = [CloseSession sid; NewSession h sid].

(** A computation that touches the store and at most one session. *)
Definition session_only {A} (m : M A) : Prop :=
  ∀ w, env (m w).2 = env w ∧ driver (m w).2 = driver w ∧
       drivers (m w).2 = drivers w ∧
       ∃ evs, session_trace evs ∧ events (m w).2 = evs ++ events w.

(** What an operation that starts with [getDriver] does to the process:
    the handle is left alone, or it was null and a new driver is in it. *)
Definition op_effect (w w' : World) : Prop :=
  env w' = env w ∧
  ∃ evs, session_trace evs ∧
    ((driver w' = driver w ∧ drivers w' = drivers w ∧ events w' = evs ++ events w) ∨
     (driver w = None ∧ configured w ∧ driver w' = Some (drivers w) ∧
      drivers w' = S (drivers w) ∧ events w' = evs ++ NewDriver (drivers w) :: events w)).

(** The bookkeeping behind [handle_invariant]: driver objects are numbered
    in creation order, and one exists only if the process is configured. *)
Definition well_formed (w : World) : Prop :=
  handle_invariant w ∧
  last_created (events w) = match drivers w with O => None | S n => Some n end ∧
  (∀ h b, CloseDriver h b ∈ events w → (h < drivers w)%nat) ∧
  (∀ h, NewDriver h ∈ events w → (h < drivers w)%nat) ∧
  ((0 < drivers w)%nat → configured w).

(** ** Start-up and shutdown (the second file, [main] and [cleanup]) *)

(** How [main], or the signal handler, leaves the process: serving
    requests, exited with a code, or with a rejection nobody handles. *)
Inductive Status :=
  | Serving
  | Exited (code : nat)
  | Unhandled (error : Thrown).

(** [main]. [connected] is the outcome of [server.connect(transport)].
    A failed connectivity check exits with code 1; a failed connect closes
    the driver and exits with code 1, and if that [closeDriver] throws,
    [main().catch] exits with code 1 as well. *)
Definition main (connected : option Thrown) : World → Status * World := λ w,
  match checkNeo4jConnectivity w with
  | (inl _, w1) => (Exited 1, w1)
  | (inr _, w1) =>
      match connected with
      | None => (Serving, w1)
      | Some _ => (Exited 1, (closeDriver w1).2)
      end
  end.

(** [cleanup], the handler of SIGINT and SIGTERM: [await closeDriver()],
    then the transport and the server are closed without being awaited,
    then [process.exit(0)]. *)
Definition cleanup : World → Status * World := λ w,
  match closeDriver w with
  | (inl error, w') => (Unhandled error, w')
  | (inr _, w') => (Exited 0, w')
  end.

End Client.

Arguments World : clear implicits.
Arguments M : clear implicits.

(** ** A library to run the model on

    A store that holds three Event nodes with a [name] and one Ghost node
    without any property, and two CONTAINS relationships. The store counts
    the calls it has served; it rejects the empty query text, and the
    library rejects a URI that is not [bolt://db]. *)
#[local] Instance demo_library : Library nat := {|
  neo4j_driver uri user password :=
    if String.eqb uri "bolt://db" then None else Some (Error "Unknown scheme");
  driver_close h st := (None, S st);
  driver_verifyConnectivity h st := (None, S st);
  driver_session h st := (None, S st);
  session_run_counts sid q st :=
    (inr (match q with
          | NodeCounts => [("Event", 3); ("Ghost", 1)]
          | _ => [("CONTAINS", 2)]
          end), S st);
  session_run_properties sid q st :=
    (inr (match q with
          | NodeProperties => [("Event", ["name"])]
          | _ => []
          end), S st);
  session_run sid query params st :=
    if String.eqb query "" then (inl (Error "Invalid input"), S st) else (inr [], S st);
  session_close sid st := (None, S st);
  stringify_schema out := "{...}";
  stringify_rows rows := "[...]"
|}.

Definition demo_env : Env :=
  mkEnv (Some "bolt://db") (Some "neo4j") (Some "secret").

(** The process after the connectivity check of start-up. *)
Definition demo_started : World nat :=
  run_op OpCheckConnectivity (initial demo_env 0%nat).

(** A library whose store is a budget of calls that succeed: once it is
    used up every call into the store throws. *)
Definition flaky_call {A} (ok : A) (st : nat) : (Thrown + A) * nat :=
  match st with
  | O => (inl (Error "Connection lost"), O)
  | S st' => (inr ok, st')
  end.

Definition flaky_command (st : nat) : option Thrown * nat :=
  match st with
  | O => (Some (Error "Connection lost"), O)
  | S st' => (None, st')
  end.

Definition flaky_library : Library nat := {|
  neo4j_driver uri user password := None;
  driver_close h := flaky_command;
  driver_verifyConnectivity h := flaky_command;
  driver_session h := flaky_command;
  session_run_counts sid q := flaky_call [("constructor", 1)];
  session_run_properties sid q := flaky_call [("constructor", ["name"])];
  session_run sid query params := flaky_call [];
  session_close sid := flaky_command;
  stringify_schema out := "{...}";
  stringify_rows rows := "[...]"
|}.

(** * Properties of the embedding *)

(** ** Sets spread into arrays *)

Lemma set_of_snoc l x : set_of (l ++ [x]) = set_add (set_of l) x.
Proof. unfold set_of. by rewrite fold_left_app. Qed.

Lemma elem_of_set_of l x : x ∈ set_of l ↔ x ∈ l.
Proof.
  induction l as [|a l IH] using rev_ind; [done|].
  rewrite set_of_snoc. unfold set_add.
  rewrite elem_of_app, list_elem_of_singleton, <-IH.
  case_decide as Ha.
  - split; [tauto|]. by intros [?| ->].
  - by rewrite elem_of_app, list_elem_of_singleton.
Qed.

Lemma NoDup_set_of l : NoDup (set_of l).
Proof.
  induction l as [|a l IH] using rev_ind; [constructor|].
  rewrite set_of_snoc. unfold set_add. case_decide; [done|].
  apply NoDup_app. split_and!; [done| |apply NoDup_singleton].
  intros x Hx ->%list_elem_of_singleton. done.
Qed.

Lemma set_of_first_occurrence l l1 x l2 :
  set_of l = l1 ++ x :: l2 →
  ∃ p q, l = p ++ x :: q ∧ (x ∉ p) ∧ (∀ y, y ∈ l1 ↔ y ∈ p).
Proof.
  revert l2. induction l as [|a l IH] using rev_ind; intros l2 Heq.
  { by destruct l1. }
  rewrite set_of_snoc in Heq. unfold set_add in Heq. case_decide as Ha.
  - destruct (IH _ Heq) as (p & q & -> & Hp & Hl1).
    exists p, (q ++ [a]). by rewrite <-app_assoc.
  - destruct l2 as [|b l2 _] using rev_ind.
    + apply app_inj_tail in Heq as [Hl ->].
      exists l, []. split_and!; [done|by rewrite <-elem_of_set_of|].
      intros y. by rewrite <-Hl, elem_of_set_of.
    + rewrite app_comm_cons, app_assoc in Heq.
      apply app_inj_tail in Heq as [Hl ->].
      destruct (IH _ Hl) as (p & q & -> & Hp & Hl1).
      exists p, (q ++ [b]). by rewrite <-app_assoc.
Qed.

(** ** The taxonomy union *)

Lemma fold_append (table : gmap string (list string)) ds acc :
  fold_left (λ acc d, acc ++ table !!! d) ds acc = acc ++ concat ((table !!!.) <$> ds).
Proof.
  revert acc. induction ds as [|d ds IH]; intros acc; simpl.
  - by rewrite app_nil_r.
  - by rewrite IH, app_assoc.
Qed.

Lemma gather_eq table ds : gather table ds = set_of (concat ((table !!!.) <$> ds)).
Proof. unfold gather. by rewrite fold_append. Qed.

Lemma gather_union table ds :
  first_occurrence_union ((table !!!.) <$> ds) (gather table ds).
Proof.
  rewrite gather_eq. split_and!.
  - apply NoDup_set_of.
  - intros x. apply elem_of_set_of.
  - intros l1 x l2. apply set_of_first_occurrence.
Qed.

Lemma elem_of_gather table ds x :
  x ∈ gather table ds ↔ ∃ d, d ∈ ds ∧ x ∈ table !!! d.
Proof.
  rewrite gather_eq, elem_of_set_of, list_elem_of_In, in_concat. split.
  - intros (l & (d & -> & Hd)%list_elem_of_In%list_elem_of_fmap & Hx%list_elem_of_In).
    eauto.
  - intros (d & Hd & Hx). exists (table !!! d).
    rewrite <-!list_elem_of_In. split; [|done].
    apply list_elem_of_fmap. eauto.
Qed.

(** ** Completing the type counts *)

Lemma fold_push_missing (ex : gset string) all acc :
  fold_left (push_missing ex) all acc
  = acc ++ ((λ t, mkTypeCount t 0) <$> filter (λ t, t ∉ ex) all).
Proof.
  revert acc. induction all as [|t all IH]; intros acc; simpl.
  - by rewrite app_nil_r.
  - rewrite IH, filter_cons. unfold push_missing.
    destruct (decide (t ∈ ex)).
    + by rewrite decide_False by tauto.
    + rewrite decide_True by done. by rewrite <-app_assoc.
Qed.

Lemma complete_types_eq live all :
  complete_types live all
  = filter (λ nt, type nt ∈ all) live
    ++ ((λ t, mkTypeCount t 0) <$> filter (λ t, t ∉ names live) all).
Proof. unfold complete_types. apply fold_push_missing. Qed.

Lemma elem_of_names l n : n ∈ names l ↔ n ∈ type <$> l.
Proof. unfold names. apply elem_of_list_to_set. Qed.

Lemma names_complete_types live all :
  names (complete_types live all) = list_to_set all.
Proof.
  apply set_eq. intros n.
  rewrite elem_of_names, complete_types_eq, fmap_app, elem_of_app.
  rewrite elem_of_list_to_set, !list_elem_of_fmap. split.
  - intros [(nt & -> & [? _]%list_elem_of_filter)
           |(nt & -> & (t & -> & [_ ?]%list_elem_of_filter)%list_elem_of_fmap)]; done.
  - intros Hn. destruct (decide (n ∈ names live)) as [Hin|Hout].
    + left. apply elem_of_names, list_elem_of_fmap in Hin as (nt & -> & Hnt).
      exists nt. split; [done|]. by apply list_elem_of_filter.
    + right. exists (mkTypeCount n 0). split; [done|].
      apply list_elem_of_fmap. exists n. split; [done|]. by apply list_elem_of_filter.
Qed.

Lemma filter_eq_absent (l : list string) x : x ∉ l → filter (λ y, y = x) l = [].
Proof.
  induction l as [|a l IH]; [done|].
  rewrite not_elem_of_cons. intros [? ?].
  rewrite filter_cons_False by congruence. auto.
Qed.

Lemma filter_eq_NoDup (l : list string) x :
  NoDup l → x ∈ l → filter (λ y, y = x) l = [x].
Proof.
  induction 1 as [|a l Ha Hl IH]; [by intros ?%elem_of_nil|].
  intros [->|Hx]%elem_of_cons.
  - rewrite filter_cons_True by done. by rewrite filter_eq_absent.
  - rewrite filter_cons_False by (intros ->; done). auto.
Qed.

Lemma entries_named_fmap n l :
  type <$> entries_named n l = filter (λ y, y = n) (type <$> l).
Proof.
  unfold entries_named. induction l as [|a l IH]; [done|].
  rewrite fmap_cons, !filter_cons.
  destruct (decide (type a = n)); [rewrite fmap_cons|]; by rewrite IH.
Qed.

Lemma entries_named_absent n l : n ∉ type <$> l → entries_named n l = [].
Proof.
  intros Hn. apply (fmap_nil_inv type).
  by rewrite entries_named_fmap, filter_eq_absent.
Qed.

Lemma entries_named_zero n (P : string → Prop) `{!∀ t, Decision (P t)} all :
  entries_named n ((λ t, mkTypeCount t 0) <$> filter P all)
  = (λ t, mkTypeCount t 0) <$> filter (λ y, y = n) (filter P all).
Proof.
  unfold entries_named. induction (filter P all) as [|a l IH]; [done|].
  rewrite fmap_cons, !filter_cons. simpl.
  destruct (decide (a = n)); [rewrite fmap_cons|]; by rewrite IH.
Qed.

(** The entries named [n] in the completed list: the live ones when the
    store has the name, the single zero entry otherwise. *)
Lemma entries_named_complete live all n :
  NoDup all → n ∈ all →
  entries_named n (complete_types live all)
  = if decide (n ∈ type <$> live) then entries_named n live else [mkTypeCount n 0].
Proof.
  intros Hnd Hn. rewrite complete_types_eq. unfold entries_named at 1.
  rewrite filter_app. fold (entries_named n (filter (λ nt, type nt ∈ all) live)).
  fold (entries_named n ((λ t, mkTypeCount t 0) <$> filter (λ t, t ∉ names live) all)).
  rewrite entries_named_zero.
  assert (entries_named n (filter (λ nt, type nt ∈ all) live) = entries_named n live) as ->.
  { unfold entries_named. rewrite list_filter_filter.
    apply list_filter_iff. intros nt. split; [tauto|]. intros ->. done. }
  case_decide as Hlive.
  - rewrite filter_eq_absent, app_nil_r; [done|].
    rewrite list_elem_of_filter, elem_of_names. tauto.
  - rewrite entries_named_absent by done. simpl.
    rewrite filter_eq_NoDup; [done|by apply NoDup_filter|].
    apply list_elem_of_filter. by rewrite elem_of_names.
Qed.

Lemma entries_named_NoDup live n :
  NoDup (type <$> live) → n ∈ type <$> live → length (entries_named n live) = 1%nat.
Proof.
  intros Hnd Hn. rewrite <-(length_fmap type), entries_named_fmap.
  by rewrite filter_eq_NoDup.
Qed.

(** ** Filtering the property index *)

Lemma fold_put_properties (props : PropertyIndex) all (acc : PropertyIndex) k :
  fold_left (put_properties props) all acc !! k
  = if decide (k ∈ all) then Some (default [] (props !! k)) else acc !! k.
Proof.
  revert acc. induction all as [|t all IH]; intros acc; simpl; [done|].
  rewrite IH. destruct (decide (k ∈ all)) as [Hk|Hk].
  - rewrite decide_True by (by right). done.
  - destruct (decide (k = t)) as [->|Hne].
    + rewrite decide_True by (by left).
      unfold put_properties. destruct (props !! t); by rewrite lookup_insert_eq.
    + rewrite decide_False by (rewrite elem_of_cons; tauto).
      unfold put_properties. destruct (props !! t); by rewrite lookup_insert_ne.
Qed.

Lemma lookup_filter_properties (props : PropertyIndex) all k :
  filter_properties props all !! k
  = if decide (k ∈ all) then Some (default [] (props !! k)) else None.
Proof. unfold filter_properties. by rewrite fold_put_properties, lookup_empty. Qed.

Lemma dom_filter_properties (props : PropertyIndex) all :
  dom (filter_properties props all) = list_to_set all.
Proof.
  apply set_eq. intros k.
  rewrite elem_of_dom, lookup_filter_properties, elem_of_list_to_set.
  case_decide; split; try done; by intros [? ?].
Qed.

(** ** The two paths of the synthesis *)

Lemma valid_domains_truthy d : valid_domains d ≠ [] → truthy d = true.
Proof. by destruct d as [|[|??]|]. Qed.

Lemma synthesize_unscoped ln lp lr lrp d :
  valid_domains d = [] →
  synthesize ln lp lr lrp d = mkSchemaOutput None ln lp lr lrp.
Proof. intros Hv. unfold synthesize. rewrite Hv. by destruct (truthy d). Qed.

Lemma synthesize_scoped ln lp lr lrp d :
  valid_domains d ≠ [] →
  synthesize ln lp lr lrp d
  = let allN := gather DOMAIN_NODE_TYPES (valid_domains d) in
    let allR := gather DOMAIN_RELATIONSHIP_TYPES (valid_domains d) in
    mkSchemaOutput (Some (valid_domains d))
      (complete_types ln allN) (filter_properties lp allN)
      (complete_types lr allR) (filter_properties lrp allR).
Proof.
  intros Hv. unfold synthesize. rewrite valid_domains_truthy by done.
  by destruct (valid_domains d).
Qed.

(** No taxonomy name is a property that an object literal inherits, so the
    lookups [nodeProperties[nodeType]] of the scoped path only ever see the
    object's own properties. *)
Lemma taxonomy_names_own table d n :
  table = DOMAIN_NODE_TYPES ∨ table = DOMAIN_RELATIONSHIP_TYPES →
  n ∈ table !!! d → n ∉ OBJECT_PROTOTYPE_KEYS.
Proof.
  intros Htable Hn Hproto.
  assert (∀ k, k ∉ KNOWN_DOMAINS → table !!! k = []) as Hunknown.
  { intros k Hk. unfold lookup_total, map_lookup_total.
    assert (table !! k = None) as ->; [|done].
    destruct Htable as [-> | ->]; by apply not_elem_of_list_to_map_1. }
  destruct (decide (d ∈ KNOWN_DOMAINS)) as [Hd|Hd]; [|by rewrite Hunknown in Hn by done; inversion Hn].
  assert (Forall (λ k, Forall (λ x, x ∉ OBJECT_PROTOTYPE_KEYS) (table !!! k)) KNOWN_DOMAINS)
    as Hall.
  { destruct Htable as [-> | ->]; apply (bool_decide_unpack _); by vm_compute. }
  rewrite Forall_forall in Hall. specialize (Hall d Hd).
  rewrite Forall_forall in Hall. by apply (Hall n).
Qed.

(** Rows of one label are merged, first occurrences first. *)
Example collect_properties_merge :
  collect_properties "nodeProperties[label]" [("A", ["p"; "q"]); ("B", []); ("A", ["q"; "r"])]
  = inr {["A" := ["p"; "q"; "r"]; "B" := []]}.
Proof. by vm_compute. Qed.

(** A label named like an inherited property makes the spread throw. *)
Example collect_properties_inherited :
  collect_properties "nodeProperties[label]" [("constructor", ["p"])]
  = inl (Error "nodeProperties[label] is not iterable").
Proof. reflexivity. Qed.

(** The scoped path builds both structures from the same union. *)
Lemma synthesize_scoped_orphan_free ln lp lr lrp d :
  valid_domains d ≠ [] → orphan_free (synthesize ln lp lr lrp d).
Proof.
  intros Hv. rewrite synthesize_scoped by done. split; simpl.
  - by rewrite names_complete_types, dom_filter_properties.
  - by rewrite names_complete_types, dom_filter_properties.
Qed.

(** ** Claims about the schema synthesis *)

(** Where the request is scoped, or the live data has no orphans, the
    output has none. *)
Lemma synthesize_orphan_free ln lp lr lrp d :
  valid_domains d ≠ [] ∨ (names ln = dom lp ∧ names lr = dom lrp) →
  orphan_free (synthesize ln lp lr lrp d).
Proof.
  intros Hcase. destruct (decide (valid_domains d = [])) as [Hv|Hv].
  - destruct Hcase as [?|Hlive]; [done|]. by rewrite synthesize_unscoped.
  - by apply synthesize_scoped_orphan_free.
Qed.

(** C1 fails on the code, on the unscoped path. A store holding one node
    labelled Person that carries no property answers the count query with
    the row (Person, 1) and the property query with no row. The unscoped
    output then counts Person and has no PropertyIndex key for it, an
    orphan; the scoped path gives Person, for the same store, the empty
    property list. *)
Theorem C1_unscoped_orphan :
  let live := to_type_counts [("Person", 1)] in
  collect_properties "nodeProperties[label]" [] = inr ∅ ∧
  nodeTypes (synthesize live ∅ [] ∅ DomUndefined) = [mkTypeCount "Person" 1] ∧
  nodeProperties (synthesize live ∅ [] ∅ DomUndefined) !! "Person" = None ∧
  ¬ orphan_free (synthesize live ∅ [] ∅ DomUndefined) ∧
  nodeProperties (synthesize live ∅ [] ∅ (DomString "crypto")) !! "Person" = Some [].
Proof.
  intros live. split_and!; try by vm_compute.
  intros Hof. rewrite synthesize_unscoped in Hof by done.
  destruct Hof as [Hnodes _]. cbn [nodeTypes nodeProperties] in Hnodes.
  assert ("Person" ∈ names live) as Hin.
  { apply elem_of_names. simpl. left. }
  rewrite Hnodes, dom_empty_L in Hin. by apply not_elem_of_empty in Hin.
Qed.

(** C2. In a scoped request the names of the requested domains are
    combined into a union without repetition, in first-occurrence order,
    for node and relationship types alike; and every name of that union,
    shared between domains or not, has exactly one TypeCount entry in the
    output (the store reports each label once). *)
Theorem C2_union_deduplicated ln lp lr lrp d :
  valid_domains d ≠ [] →
  NoDup (type <$> ln) → NoDup (type <$> lr) →
  let out := synthesize ln lp lr lrp d in
  let unionN := gather DOMAIN_NODE_TYPES (valid_domains d) in
  let unionR := gather DOMAIN_RELATIONSHIP_TYPES (valid_domains d) in
  first_occurrence_union ((DOMAIN_NODE_TYPES !!!.) <$> valid_domains d) unionN ∧
  first_occurrence_union ((DOMAIN_RELATIONSHIP_TYPES !!!.) <$> valid_domains d) unionR ∧
  names (nodeTypes out) = list_to_set unionN ∧
  names (relationshipTypes out) = list_to_set unionR ∧
  (∀ n, n ∈ unionN → length (entries_named n (nodeTypes out)) = 1%nat) ∧
  (∀ n, n ∈ unionR → length (entries_named n (relationshipTypes out)) = 1%nat).
Proof.
  intros Hv Hln Hlr out unionN unionR. subst out.
  rewrite synthesize_scoped by done. simpl. fold unionN unionR.
  assert (∀ live all n, NoDup (type <$> live) → NoDup all → n ∈ all →
            length (entries_named n (complete_types live all)) = 1%nat) as Hone.
  { intros live all n Hlive Hall Hn. rewrite entries_named_complete by done.
    case_decide; [by apply entries_named_NoDup|done]. }
  pose proof (gather_union DOMAIN_NODE_TYPES (valid_domains d)) as HN.
  pose proof (gather_union DOMAIN_RELATIONSHIP_TYPES (valid_domains d)) as HR.
  split_and!; try done.
  - apply names_complete_types.
  - apply names_complete_types.
  - intros n Hn. apply Hone; [done|apply HN|done].
  - intros n Hn. apply Hone; [done|apply HR|done].
Qed.

Lemma C2_union_deduplicated_witness :
  "Event" ∈ DOMAIN_NODE_TYPES !!! "crypto" ∧ "Event" ∈ DOMAIN_NODE_TYPES !!! "media" ∧
  "SUPPORTS" ∈ DOMAIN_RELATIONSHIP_TYPES !!! "crypto" ∧
  "SUPPORTS" ∈ DOMAIN_RELATIONSHIP_TYPES !!! "media" ∧
  let out := synthesize (to_type_counts [("Event", 3); ("Song", 1)]) {["Event" := ["name"]]}
               [] ∅ (DomArray ["crypto"; "media"]) in
  length (entries_named "Event" (nodeTypes out)) = 1%nat ∧
  length (entries_named "SUPPORTS" (relationshipTypes out)) = 1%nat.
Proof.
  assert (∀ (x : string) (l : list string), bool_decide (x ∈ l) = true → x ∈ l) as Hmem.
  { intros x l Hb. by apply bool_decide_eq_true in Hb. }
  destruct (C2_union_deduplicated (to_type_counts [("Event", 3); ("Song", 1)])
              {["Event" := ["name"]]} [] ∅ (DomArray ["crypto"; "media"]))
    as (_ & _ & _ & _ & HN & HR).
  - vm_compute. discriminate.
  - apply (bool_decide_unpack _). by vm_compute.
  - constructor.
  - split_and!; try (apply Hmem; by vm_compute).
    split; [apply HN|apply HR]; apply Hmem; by vm_compute.
Defined.

(** What completing and filtering do for one name of the union. *)
Lemma zero_fill live (props : PropertyIndex) all n :
  NoDup all → n ∈ all →
  n ∈ names (complete_types live all) ∧
  is_Some (filter_properties props all !! n) ∧
  (n ∉ type <$> live → entries_named n (complete_types live all) = [mkTypeCount n 0]) ∧
  (props !! n = None → filter_properties props all !! n = Some []).
Proof.
  intros Hnd Hn. split_and!.
  - by rewrite names_complete_types, elem_of_list_to_set.
  - rewrite lookup_filter_properties, decide_True by done. eauto.
  - intros Hlive. rewrite entries_named_complete by done. by rewrite decide_False.
  - intros Hnone. rewrite lookup_filter_properties, decide_True by done.
    by rewrite Hnone.
Qed.

(** C3. In a scoped request every name the taxonomy declares for a
    requested valid domain is in the output, as a TypeCount name and as a
    PropertyIndex key; a name the live counts do not have gets the single
    entry of count 0, and a name the live property index does not have
    gets the empty property list. *)
Theorem C3_zero_fill ln lp lr lrp d domain :
  domain ∈ valid_domains d →
  let out := synthesize ln lp lr lrp d in
  (∀ n, n ∈ DOMAIN_NODE_TYPES !!! domain →
     n ∈ names (nodeTypes out) ∧
     is_Some (nodeProperties out !! n) ∧
     (n ∉ type <$> ln → entries_named n (nodeTypes out) = [mkTypeCount n 0]) ∧
     (lp !! n = None → nodeProperties out !! n = Some [])) ∧
  (∀ n, n ∈ DOMAIN_RELATIONSHIP_TYPES !!! domain →
     n ∈ names (relationshipTypes out) ∧
     is_Some (relationshipProperties out !! n) ∧
     (n ∉ type <$> lr → entries_named n (relationshipTypes out) = [mkTypeCount n 0]) ∧
     (lrp !! n = None → relationshipProperties out !! n = Some [])).
Proof.
  intros Hdom out. subst out.
  assert (valid_domains d ≠ []) as Hv by (intros Heq; rewrite Heq in Hdom; inversion Hdom).
  rewrite synthesize_scoped by done. simpl.
  split; intros n Hn; (apply zero_fill; [apply gather_union|]);
    apply elem_of_gather; eauto.
Qed.

(** With an empty live dataset and the domain "code", every name of the
    code taxonomy is there with count 0 and no property. *)
Lemma C3_zero_fill_witness :
  let out := synthesize [] ∅ [] ∅ (DomString "code") in
  (∀ n, n ∈ DOMAIN_NODE_TYPES !!! "code" →
     entries_named n (nodeTypes out) = [mkTypeCount n 0] ∧
     nodeProperties out !! n = Some []) ∧
  (∀ n, n ∈ DOMAIN_RELATIONSHIP_TYPES !!! "code" →
     entries_named n (relationshipTypes out) = [mkTypeCount n 0] ∧
     relationshipProperties out !! n = Some []).
Proof.
  intros out.
  destruct (C3_zero_fill [] ∅ [] ∅ (DomString "code") "code") as [HN HR].
  { apply (bool_decide_unpack _). by vm_compute. }
  split; intros n Hn.
  - destruct (HN n Hn) as (_ & _ & Hzero & Hempty).
    split; [apply Hzero; by intros ?%elem_of_nil|apply Hempty, lookup_empty].
  - destruct (HR n Hn) as (_ & _ & Hzero & Hempty).
    split; [apply Hzero; by intros ?%elem_of_nil|apply Hempty, lookup_empty].
Defined.

(** C5. When the argument is absent, or no valid domain is left in it, the
    output is the live data as it came, with no [domains] field. *)
Theorem C5_no_scope_identity ln lp lr lrp d :
  valid_domains d = [] →
  synthesize ln lp lr lrp d
  = {| domains := None;
       nodeTypes := ln;
       nodeProperties := lp;
       relationshipTypes := lr;
       relationshipProperties := lrp |}.
Proof. apply synthesize_unscoped. Qed.

Lemma C5_no_scope_identity_witness :
  synthesize (to_type_counts [("Song", 2); ("Person", 7)]) {["Song" := ["title"]]}
    (to_type_counts [("WROTE", 1)]) ∅ DomUndefined
  = {| domains := None;
       nodeTypes := to_type_counts [("Song", 2); ("Person", 7)];
       nodeProperties := {["Song" := ["title"]]};
       relationshipTypes := to_type_counts [("WROTE", 1)];
       relationshipProperties := ∅ |}.
Proof. apply C5_no_scope_identity. reflexivity. Defined.

(** The entries and the key of one name in a scoped output, read off the
    taxonomy tables and the request. *)
Lemma scoped_entries table live (props : PropertyIndex) d n :
  let declared := ∃ domain, (domain ∈ as_array d ∧ domain ∈ KNOWN_DOMAINS) ∧
                            n ∈ table !!! domain in
  let all := gather table (valid_domains d) in
  (declared →
     entries_named n (complete_types live all)
     = (if decide (n ∈ type <$> live) then entries_named n live else [mkTypeCount n 0]) ∧
     filter_properties props all !! n = Some (default [] (props !! n))) ∧
  (¬ declared →
     entries_named n (complete_types live all) = [] ∧
     filter_properties props all !! n = None).
Proof.
  intros declared all.
  assert (n ∈ all ↔ declared) as Hall.
  { unfold all, declared. rewrite elem_of_gather. unfold valid_domains.
    split; intros (domain & Hd & Hn); exists domain; (split; [|done]).
    - apply list_elem_of_filter in Hd. tauto.
    - apply list_elem_of_filter. tauto. }
  split; intros Hn.
  - apply Hall in Hn. split.
    + apply entries_named_complete; [apply gather_union|done].
    + by rewrite lookup_filter_properties, decide_True.
  - rewrite <-Hall in Hn. split.
    + apply entries_named_absent.
      by rewrite <-elem_of_names, names_complete_types, elem_of_list_to_set.
    + by rewrite lookup_filter_properties, decide_False.
Qed.

(** C6. A scoped output echoes, in [domains], the requested identifiers
    that are valid, in the order of the request and as often as they were
    given, while the type names are deduplicated: however often a domain
    is requested, a name it declares has in the output exactly the live
    entries of that name, or the single entry of count 0 when the store
    has none, and exactly one PropertyIndex key; a name that no requested
    valid domain declares has no entry and no key. *)
Theorem C6_domain_echo ln lp lr lrp d :
  valid_domains d ≠ [] →
  let out := synthesize ln lp lr lrp d in
  let declared table n :=
    ∃ domain, (domain ∈ as_array d ∧ domain ∈ KNOWN_DOMAINS) ∧ n ∈ table !!! domain in
  domains out = Some (filter (λ x, x ∈ KNOWN_DOMAINS) (as_array d)) ∧
  (∀ n, declared DOMAIN_NODE_TYPES n →
     entries_named n (nodeTypes out)
     = (if decide (n ∈ type <$> ln) then entries_named n ln else [mkTypeCount n 0]) ∧
     nodeProperties out !! n = Some (default [] (lp !! n))) ∧
  (∀ n, ¬ declared DOMAIN_NODE_TYPES n →
     entries_named n (nodeTypes out) = [] ∧ nodeProperties out !! n = None) ∧
  (∀ n, declared DOMAIN_RELATIONSHIP_TYPES n →
     entries_named n (relationshipTypes out)
     = (if decide (n ∈ type <$> lr) then entries_named n lr else [mkTypeCount n 0]) ∧
     relationshipProperties out !! n = Some (default [] (lrp !! n))) ∧
  (∀ n, ¬ declared DOMAIN_RELATIONSHIP_TYPES n →
     entries_named n (relationshipTypes out) = [] ∧
     relationshipProperties out !! n = None) ∧
  NoDup (gather DOMAIN_NODE_TYPES (valid_domains d)) ∧
  NoDup (gather DOMAIN_RELATIONSHIP_TYPES (valid_domains d)) ∧
  names (nodeTypes out) = list_to_set (gather DOMAIN_NODE_TYPES (valid_domains d)) ∧
  names (relationshipTypes out)
  = list_to_set (gather DOMAIN_RELATIONSHIP_TYPES (valid_domains d)).
Proof.
  intros Hv out declared. subst out declared. rewrite synthesize_scoped by done. simpl.
  split_and!; try done; try apply gather_union; try apply names_complete_types;
    intros n; apply scoped_entries.
Qed.

Lemma C6_domain_echo_witness :
  let out := synthesize (to_type_counts [("Agent", 4)]) ∅ [] ∅ (DomArray ["mind"; "mind"]) in
  domains out = Some ["mind"; "mind"] ∧
  entries_named "Task" (nodeTypes out) = [mkTypeCount "Task" 0] ∧
  entries_named "Agent" (nodeTypes out) = [mkTypeCount "Agent" 4] ∧
  length (nodeTypes out) = 12%nat.
Proof.
  intros out.
  assert (∀ n, n ∈ DOMAIN_NODE_TYPES !!! "mind" →
            ∃ domain, (domain ∈ as_array (DomArray ["mind"; "mind"]) ∧ domain ∈ KNOWN_DOMAINS)
                      ∧ n ∈ DOMAIN_NODE_TYPES !!! domain) as Hmind.
  { intros n Hn. exists "mind". split; [|done].
    split; apply (bool_decide_unpack _); by vm_compute. }
  destruct (C6_domain_echo (to_type_counts [("Agent", 4)]) ∅ [] ∅ (DomArray ["mind"; "mind"]))
    as (Hecho & Hnodes & _).
  - vm_compute. discriminate.
  - subst out. split_and!.
    + exact Hecho.
    + destruct (Hnodes "Task") as [-> _]; [|by vm_compute].
      apply Hmind, (bool_decide_unpack _). by vm_compute.
    + destruct (Hnodes "Agent") as [-> _]; [|by vm_compute].
      apply Hmind, (bool_decide_unpack _). by vm_compute.
    + by vm_compute.
Defined.

(** ** Claims about the parameter walk *)

Lemma Json_induction (P : Json → Prop) :
  P JNull → (∀ b, P (JBool b)) → (∀ n, P (JNumber n)) → (∀ s, P (JString s)) →
  (∀ items, Forall P items → P (JArray items)) →
  (∀ entries, Forall (λ kv, P kv.2) entries → P (JObject entries)) →
  ∀ j, P j.
Proof.
  intros Hnull Hbool Hnum Hstr Harr Hobj. fix IH 1.
  intros [|b|n|s|items|entries].
  - exact Hnull.
  - exact (Hbool b).
  - exact (Hnum n).
  - exact (Hstr s).
  - apply Harr. induction items as [|item items IHitems]; constructor.
    + exact (IH item).
    + exact IHitems.
  - apply Hobj. induction entries as [|[k v] entries IHentries]; constructor.
    + exact (IH v).
    + exact IHentries.
Qed.

Lemma process_item_scalar item : scalar item = true → process_item item = normalize item.
Proof. by destruct item. Qed.

(** Without a key [__proto__] the fresh object keeps its prototype and
    gets every entry. *)
Lemma assign_entries_plain f entries :
  forallb (λ kv : string * Json, negb (String.eqb kv.1 "__proto__")) entries = true →
  assign_entries f entries
  = VObject OrdinaryPrototype (map (λ kv, (kv.1, f kv.2)) entries).
Proof.
  intros Hkeys. unfold assign_entries. cbv zeta.
  assert (Forall (λ kv : string * Value, kv.1 ≠ "__proto__")
            (map (λ kv : string * Json, (kv.1, f kv.2)) entries)) as Hall.
  { induction entries as [|[k v] entries IH]; [constructor|].
    simpl in Hkeys. apply andb_prop in Hkeys as [Hk Hrest].
    constructor; [|by apply IH]. simpl. intros ->. done. }
  f_equal.
  - destruct (list_find _ _) as [[i [k v]]|] eqn:Hfind; [|done].
    apply list_find_Some in Hfind as (Hi%list_elem_of_lookup_2 & Hk & _).
    rewrite Forall_forall in Hall. by destruct (Hall _ Hi).
  - induction Hall as [|kv l Hkv Hl IH]; [done|]. by rewrite filter_cons_True, IH.
Qed.

Lemma plain_keys_entries entries :
  plain_keys (JObject entries) = true →
  forallb (λ kv : string * Json, negb (String.eqb kv.1 "__proto__")) entries = true ∧
  ∀ kv, In kv entries → plain_keys kv.2 = true.
Proof.
  simpl. rewrite !forallb_forall. intros Hkeys. split.
  - intros kv Hin. by destruct (andb_prop _ _ (Hkeys kv Hin)).
  - intros kv Hin. by destruct (andb_prop _ _ (Hkeys kv Hin)).
Qed.

(** Where every array holds scalars only and no key is [__proto__], the
    walk of the source is the full normalisation. *)
Lemma process_value_flat j :
  flat_arrays j = true → plain_keys j = true → process_value j = normalize j.
Proof.
  induction j as [| | | |items IH|entries IH] using Json_induction; try done.
  - intros Hflat _. simpl in *. f_equal.
    apply map_ext_in. intros item Hin. apply process_item_scalar.
    rewrite forallb_forall in Hflat. auto.
  - intros Hflat [Hkeys Hnested]%plain_keys_entries.
    cbn [process_value normalize]. rewrite assign_entries_plain by done. f_equal.
    apply map_ext_in. intros [k v] Hin. simpl. f_equal.
    rewrite Forall_forall in IH. apply (IH (k, v)).
    + by apply list_elem_of_In.
    + simpl in Hflat. rewrite forallb_forall in Hflat. by apply (Hflat (k, v)).
    + by apply (Hnested (k, v)).
Qed.

Lemma processParams_flat params :
  flat_arrays (JObject params) = true → plain_keys (JObject params) = true →
  processParams params = normalize_params params.
Proof. intros Hflat Hkeys. by apply (process_value_flat (JObject params)). Qed.

(** The example of the specification: [{limit: 5.9, nested: {x: 3.2}}] is
    submitted as [{limit: 5, nested: {x: 3}}]. *)
Example processParams_floor :
  processParams [("limit", JNumber (Finite (59 # 10)));
                 ("nested", JObject [("x", JNumber (Finite (32 # 10)))])]
  = VObject OrdinaryPrototype
      [("limit", VInt 5); ("nested", VObject OrdinaryPrototype [("x", VInt 3)])].
Proof. reflexivity. Qed.

(** Flooring is not rounding, also below zero. *)
Example processParams_floor_negative :
  processParams [("offset", JNumber (Finite (-(59 # 10))))]
  = VObject OrdinaryPrototype [("offset", VInt (-6))].
Proof. reflexivity. Qed.

(** C7 fails on the code: an object (or an array) that is an item of an
    array is passed through as it is, and the numbers inside it reach the
    store as floats. For [{filters: [{x: 3.2}]}] the specification asks
    for [{filters: [{x: 3}]}]. *)
Theorem C7_array_items_not_walked :
  let params := [("filters", JArray [JObject [("x", JNumber (Finite (32 # 10)))]])] in
  processParams params
  = VObject OrdinaryPrototype
      [("filters", VArray [VObject OrdinaryPrototype [("x", VNumber (Finite (32 # 10)))]])] ∧
  normalize_params params
  = VObject OrdinaryPrototype
      [("filters", VArray [VObject OrdinaryPrototype [("x", VInt 3)]])] ∧
  processParams params ≠ normalize_params params.
Proof. split_and!; [reflexivity|reflexivity|discriminate]. Qed.

(** ** The monad and the library calls *)

Section ClientFacts.
Context {Store : Type} `{!Library Store}.
Implicit Types w : World Store.

Lemma quiet_ret {A} (x : A) : quiet (mret x : M Store A).
Proof. by intros w. Qed.

Lemma quiet_throw {A} error : quiet (throw error : M Store A).
Proof. by intros w. Qed.

Lemma quiet_lift {A} (r : Thrown + A) : quiet (lift r : M Store A).
Proof. by intros w. Qed.

Lemma quiet_ask {A} (f : Store → (Thrown + A) * Store) : quiet (ask f).
Proof. intros w. unfold ask. by destruct (f (store w)). Qed.

Lemma quiet_call (f : Store → option Thrown * Store) : quiet (call f []).
Proof. intros w. unfold call. by destruct (f (store w)) as [[error|] st]. Qed.

Lemma quiet_bind {A B} (m : M Store A) (f : A → M Store B) :
  quiet m → (∀ x, quiet (f x)) → quiet (m ≫= f).
Proof.
  intros Hm Hf w. unfold mbind, M_bind. specialize (Hm w).
  destruct (m w) as [[error|x] w1]; [done|]. simpl in Hm.
  destruct Hm as (<- & <- & <- & <-). apply Hf.
Qed.

Lemma quiet_try_catch {A} (body : M Store A) handler :
  quiet body → (∀ error, quiet (handler error)) → quiet (try_catch body handler).
Proof.
  intros Hb Hh w. unfold try_catch. specialize (Hb w).
  destruct (body w) as [[error|x] w1]; [|done]. simpl in Hb.
  destruct Hb as (<- & <- & <- & <-). apply Hh.
Qed.

Lemma quiet_schema_body domain session : quiet (schema_body domain session).
Proof.
  unfold schema_body.
  repeat (apply quiet_bind; [first [apply quiet_ask|apply quiet_lift]|intros ?]).
  apply quiet_ret.
Qed.

Lemma session_only_quiet {A} (m : M Store A) : quiet m → session_only m.
Proof.
  intros Hm w. destruct (Hm w) as (? & ? & ? & ?). split_and!; try done.
  exists []. split; [by left|done].
Qed.

(** One use of a session: whatever the body does, the session that was
    opened is closed before the frame is left. *)
Lemma session_only_with_session {A} h (body : nat → M Store A) handler :
  (∀ session, quiet (body session)) → (∀ error, quiet (handler error)) →
  session_only (with_session h body handler).
Proof.
  intros Hb Hh w. unfold with_session, open_session.
  destruct (driver_session h (store w)) as [[error|] st].
  - destruct (Hh error (mkWorld (env w) (driver w) st (drivers w) (sessions w) (events w)))
      as (? & ? & ? & ?).
    split_and!; try done. exists []. split; [by left|done].
  - unfold try_finally.
    pose proof (quiet_try_catch _ _ (Hb (sessions w)) Hh
                  (mkWorld (env w) (driver w) st (drivers w) (S (sessions w))
                     (NewSession h (sessions w) :: events w))) as Hq.
    destruct (try_catch (body (sessions w)) handler _) as [outcome w2].
    simpl in Hq. destruct Hq as (He & Hd & Hn & Hev).
    unfold call. destruct (session_close (sessions w) (store w2)) as [[error|] st2];
      simpl; (split_and!; try done;
              exists [CloseSession (sessions w); NewSession h (sessions w)];
              split; [right; eauto|by rewrite Hev]).
Qed.

Lemma with_session_ext {A} h (body body' : nat → M Store A) handler w :
  (∀ session w1, body session w1 = body' session w1) →
  with_session h body handler w = with_session h body' handler w.
Proof.
  intros Hext. unfold with_session.
  destruct (open_session h w) as [[error|session] w1]; [done|].
  unfold try_finally, try_catch. by rewrite Hext.
Qed.

(** The world after a [try]/[catch] whose handler only builds a value. *)
Lemma try_catch_ret {A B} (body : M Store A) (ok : A → B) (ko : Thrown → B) w :
  try_catch (x ← body; mret (ok x)) (λ error, mret (ko error)) w
  = match body w with
    | (inl error, w') => (inr (ko error), w')
    | (inr x, w') => (inr (ok x), w')
    end.
Proof.
  unfold try_catch, mbind, M_bind. by destruct (body w) as [[error|x] w'].
Qed.

(** ** The handle *)

Lemma getDriver_reuse w h :
  driver w = Some h →
  present (NEO4J_URI (env w)) = true → present (NEO4J_USER (env w)) = true →
  present (NEO4J_PASSWORD (env w)) = true →
  getDriver w = (inr h, w).
Proof. intros Hd Huri Huser Hpw. unfold getDriver. by rewrite Huri, Huser, Hpw, Hd. Qed.

Lemma getDriver_create w :
  driver w = None → configured w →
  getDriver w
  = (inr (drivers w),
     mkWorld (env w) (Some (drivers w)) (store w) (S (drivers w)) (sessions w)
       (NewDriver (drivers w) :: events w)).
Proof.
  intros Hd (Huri & Huser & Hpw & Hlib). unfold getDriver.
  by rewrite Huri, Huser, Hpw, Hd, Hlib.
Qed.

Lemma getDriver_cases w r w' :
  getDriver w = (r, w') →
  w' = w ∨
  (driver w = None ∧ configured w ∧ r = inr (drivers w) ∧
   w' = mkWorld (env w) (Some (drivers w)) (store w) (S (drivers w)) (sessions w)
          (NewDriver (drivers w) :: events w)).
Proof.
  unfold getDriver, configured.
  destruct (present (NEO4J_URI (env w))), (present (NEO4J_USER (env w))),
    (present (NEO4J_PASSWORD (env w))); simpl; try (intros [= <- <-]; by left).
  destruct (driver w) as [h|]; [intros [= <- <-]; by left|].
  destruct (neo4j_driver _ _ _) as [error|] eqn:Hlib; intros [= <- <-]; [by left|].
  right. by split_and!.
Qed.

(** An operation that fetches the handle and then uses one session. *)
Lemma getDriver_bind_effect {A} (rest : nat → M Store A) w :
  (∀ h, session_only (rest h)) → op_effect w ((getDriver ≫= rest) w).2.
Proof.
  intros Hrest. unfold mbind, M_bind.
  destruct (getDriver w) as [r w1] eqn:Hget.
  apply getDriver_cases in Hget as [->|(Hd & Hconf & -> & ->)].
  - destruct r as [error|h]; simpl.
    + split; [done|]. exists []. split; [by left|]. by left.
    + destruct (Hrest h w) as (? & ? & ? & evs & ? & ?).
      split; [done|]. exists evs. split; [done|]. by left.
  - destruct (Hrest (drivers w)
                (mkWorld (env w) (Some (drivers w)) (store w) (S (drivers w))
                   (sessions w) (NewDriver (drivers w) :: events w)))
      as (? & ? & ? & evs & ? & ?).
    split; [done|]. exists evs. split; [done|]. right. by split_and!.
Qed.

Lemma getDriver_bind_creates {A} (rest : nat → M Store A) w :
  (∀ h, session_only (rest h)) → driver w = None → configured w →
  driver ((getDriver ≫= rest) w).2 = Some (drivers w).
Proof.
  intros Hrest Hd Hconf. unfold mbind, M_bind. rewrite getDriver_create by done.
  by destruct (Hrest (drivers w)
                 (mkWorld (env w) (Some (drivers w)) (store w) (S (drivers w))
                    (sessions w) (NewDriver (drivers w) :: events w)))
    as (_ & -> & _).
Qed.

Lemma session_only_check_rest h :
  session_only
    (try_catch (call (driver_verifyConnectivity h) [];; mret true)
       (λ error, throw (Error ("Neo4j connection failed: " +:+ message_of error)))
     : M Store bool).
Proof.
  apply session_only_quiet, quiet_try_catch.
  - apply quiet_bind; [apply quiet_call|intros _; apply quiet_ret].
  - intros error. apply quiet_throw.
Qed.

Lemma session_only_query_rest query params h :
  session_only
    (with_session h
       (λ session,
          records ← ask (session_run session query (processParams params));
          mret (stringify_rows records))
       (λ error, throw (Error ("Failed to execute Cypher query: " +:+ message_of error)))
     : M Store string).
Proof.
  apply session_only_with_session.
  - intros session. apply quiet_bind; [apply quiet_ask|intros ?; apply quiet_ret].
  - intros error. apply quiet_throw.
Qed.

Lemma session_only_schema_rest domain h :
  session_only
    (with_session h (schema_body domain)
       (λ error, throw (Error ("Failed to fetch Neo4j schema: " +:+ message_of error)))
     : M Store string).
Proof.
  apply session_only_with_session.
  - intros session. apply quiet_schema_body.
  - intros error. apply quiet_throw.
Qed.

Lemma runCypherQuery_effect query params w :
  op_effect w (runCypherQuery query params w).2.
Proof. apply getDriver_bind_effect. intros h. apply session_only_query_rest. Qed.

Lemma getNeo4jSchema_effect domain w : op_effect w (getNeo4jSchema domain w).2.
Proof. apply getDriver_bind_effect. intros h. apply session_only_schema_rest. Qed.

Lemma checkNeo4jConnectivity_effect w : op_effect w (checkNeo4jConnectivity w).2.
Proof. apply getDriver_bind_effect. intros h. apply session_only_check_rest. Qed.

Lemma run_cypher_query_world query params w :
  (run_cypher_query query params w).2 = (runCypherQuery query (default [] params) w).2.
Proof.
  unfold run_cypher_query. rewrite try_catch_ret.
  by destruct (runCypherQuery _ _ w) as [[error|x] w'].
Qed.

Lemma get_graph_schema_world domain w :
  (get_graph_schema domain w).2 = (getNeo4jSchema domain w).2.
Proof.
  unfold get_graph_schema. rewrite try_catch_ret.
  by destruct (getNeo4jSchema _ w) as [[error|x] w'].
Qed.

Lemma run_op_effect op w : op ≠ OpCloseDriver → op_effect w (run_op op w).
Proof.
  destruct op as [|domain|query params|]; intros Hop; [| | |done]; simpl.
  - apply checkNeo4jConnectivity_effect.
  - rewrite get_graph_schema_world. apply getNeo4jSchema_effect.
  - rewrite run_cypher_query_world. apply runCypherQuery_effect.
Qed.

Lemma run_op_creates op w :
  op ≠ OpCloseDriver → driver w = None → configured w →
  driver (run_op op w) = Some (drivers w).
Proof.
  destruct op as [|domain|query params|]; intros Hop Hd Hconf; [| | |done]; simpl.
  - apply getDriver_bind_creates; [|done..]. intros h. apply session_only_check_rest.
  - rewrite get_graph_schema_world.
    apply getDriver_bind_creates; [|done..]. intros h. apply session_only_schema_rest.
  - rewrite run_cypher_query_world.
    apply getDriver_bind_creates; [|done..]. intros h. apply session_only_query_rest.
Qed.

End ClientFacts.

(** ** Events of a session and of the handle *)

Lemma session_trace_last_created evs l :
  session_trace evs → last_created (evs ++ l) = last_created l.
Proof. by intros [->|(h & sid & ->)]. Qed.

Lemma session_trace_close_driver evs l h b :
  session_trace evs → CloseDriver h b ∈ evs ++ l ↔ CloseDriver h b ∈ l.
Proof.
  intros [->|(h' & sid & ->)]; [done|]. simpl.
  rewrite !elem_of_cons. split; [|tauto]. by intros [?|[?|?]].
Qed.

Lemma session_trace_new_driver evs l h :
  session_trace evs → NewDriver h ∈ evs ++ l ↔ NewDriver h ∈ l.
Proof.
  intros [->|(h' & sid & ->)]; [done|]. simpl.
  rewrite !elem_of_cons. split; [|tauto]. by intros [?|[?|?]].
Qed.

Lemma session_trace_released evs pre :
  session_trace evs → (∀ h sid, NewSession h sid ∉ pre) →
  sessions_released (evs ++ pre).
Proof.
  intros Htrace Hpre h sid later earlier Heq.
  assert (∀ l, l = later ++ NewSession h sid :: earlier → NewSession h sid ∈ l) as Hin.
  { intros l ->. apply elem_of_app. right. left. }
  destruct Htrace as [->|(h' & sid' & ->)].
  - by apply Hin, Hpre in Heq.
  - destruct later as [|a [|b later]]; simpl in Heq.
    + discriminate Heq.
    + injection Heq as Ha Hh Hsid Hearlier. subst. left.
    + exfalso. apply (Hpre h sid).
      assert (pre = later ++ NewSession h sid :: earlier) as -> by congruence.
      apply elem_of_app. right. left.
Qed.

Section Runs.
Context {Store : Type} `{!Library Store}.
Implicit Types w : World Store.

Lemma configured_env w w' : env w' = env w → configured w → configured w'.
Proof. unfold configured. by intros ->. Qed.

Lemma well_formed_initial e (st : Store) : well_formed (initial e st).
Proof.
  unfold well_formed, handle_invariant. simpl.
  split_and!; try done; try (by intros ? ? ?%elem_of_nil); try (by intros ? ?%elem_of_nil).
  lia.
Qed.

Lemma well_formed_op_effect w w' : well_formed w → op_effect w w' → well_formed w'.
Proof.
  intros (Hinv & Hlast & Hclose & Hnew & Hconf) (Henv & evs & Htrace & Hcase).
  unfold well_formed, handle_invariant in *.
  destruct Hcase as [(Hd & Hn & Hev)|(Hd & Hc & Hd' & Hn & Hev)]; rewrite ?Hd', Hn, Hev.
  - rewrite Hd. split_and!.
    + destruct (driver w) as [h|]; [|done].
      by rewrite session_trace_last_created, session_trace_close_driver.
    + by rewrite session_trace_last_created.
    + intros h b. rewrite session_trace_close_driver by done. apply Hclose.
    + intros h. rewrite session_trace_new_driver by done. apply Hnew.
    + intros Hpos. by apply (configured_env w), Hconf.
  - split_and!.
    + by rewrite session_trace_last_created.
    + rewrite session_trace_close_driver by done.
      intros [?|Hin%Hclose]%elem_of_cons; [done|lia].
    + by rewrite session_trace_last_created.
    + intros h b. rewrite session_trace_close_driver by done.
      intros [?|Hin%Hclose]%elem_of_cons; [done|lia].
    + intros h. rewrite session_trace_new_driver by done.
      intros [[= ->]|Hin%Hnew]%elem_of_cons; lia.
    + intros _. by apply (configured_env w).
Qed.

Lemma well_formed_closeDriver w : well_formed w → well_formed (closeDriver w).2.
Proof.
  intros (Hinv & Hlast & Hclose & Hnew & Hconf).
  unfold closeDriver. unfold handle_invariant in Hinv.
  destruct (driver w) as [h|] eqn:Hd;
    [|simpl; unfold well_formed, handle_invariant; rewrite Hd; by split_and!].
  destruct Hinv as [Hh Hopen].
  assert (h < drivers w)%nat as Hlt.
  { rewrite Hh in Hlast. destruct (drivers w); simplify_eq. lia. }
  destruct (driver_close h (store w)) as [[error|] st]; simpl;
    unfold well_formed, handle_invariant; simpl; split_and!; try done.
  - intros [?|?]%elem_of_cons; done.
  - intros h' b [[= -> ->]|?]%elem_of_cons; eauto.
  - intros h' [?|?]%elem_of_cons; eauto. done.
  - intros h' b [[= -> ->]|?]%elem_of_cons; eauto.
  - intros h' [?|?]%elem_of_cons; eauto. done.
Qed.

Lemma reachable_well_formed w : reachable w → well_formed w.
Proof.
  induction 1 as [e st|op w Hreach IH].
  - apply well_formed_initial.
  - destruct op as [|domain|query params|];
      [| | |by apply well_formed_closeDriver];
      (eapply well_formed_op_effect; [done|]; by apply run_op_effect).
Qed.

Lemma schema_body_ext d d' session w :
  (∀ ln lp lr lrp, synthesize ln lp lr lrp d = synthesize ln lp lr lrp d') →
  schema_body d session w = schema_body d' session w.
Proof.
  intros Hsyn. unfold schema_body, mbind, M_bind, mret, M_ret, lift.
  repeat (match goal with
          | |- context [ask ?f ?w0] => destruct (ask f w0) as [[?|?] ?]; [done|]
          end).
  repeat (match goal with
          | |- context [collect_properties ?s ?l] =>
              destruct (collect_properties s l) as [?|?]; [done|]
          end).
  by rewrite Hsyn.
Qed.

Lemma getNeo4jSchema_ext d d' w :
  (∀ ln lp lr lrp, synthesize ln lp lr lrp d = synthesize ln lp lr lrp d') →
  getNeo4jSchema d w = getNeo4jSchema d' w.
Proof.
  intros Hsyn. unfold getNeo4jSchema, mbind, M_bind.
  destruct (getDriver w) as [[error|h] w1]; [done|].
  apply with_session_ext. intros session w2. by apply schema_body_ext.
Qed.

End Runs.

(** ** Claims about the router, the sessions and the handle *)

Lemma valid_domains_idemp d : valid_domains (DomArray (valid_domains d)) = valid_domains d.
Proof.
  unfold valid_domains at 1 3. simpl. unfold valid_domains.
  rewrite list_filter_filter. apply list_filter_iff. tauto.
Qed.

Lemma synthesize_valid ln lp lr lrp d :
  synthesize ln lp lr lrp d = synthesize ln lp lr lrp (DomArray (valid_domains d)).
Proof.
  destruct (decide (valid_domains d = [])) as [Hv|Hv].
  - rewrite !synthesize_unscoped; [done| |done]. by rewrite valid_domains_idemp.
  - rewrite !synthesize_scoped; rewrite ?valid_domains_idemp; done.
Qed.

Lemma synthesize_fallback ln lp lr lrp d :
  valid_domains d = [] →
  synthesize ln lp lr lrp d = synthesize ln lp lr lrp DomUndefined.
Proof. intros Hv. by rewrite !synthesize_unscoped. Qed.

Section RouterClaims.
Context {Store : Type} `{!Library Store}.
Implicit Types w : World Store.

(** What [getNeo4jSchema] returns is the serialisation of [synthesize] on
    the normalised rows of the four introspection queries. *)
Lemma schema_body_returns d session w text w' :
  schema_body d session w = (inr text, w') →
  ∃ nodeRows nodePropertyRows relRows relPropertyRows lp lrp,
    collect_properties "nodeProperties[label]" nodePropertyRows = inr lp ∧
    collect_properties "relationshipProperties[relType]" relPropertyRows = inr lrp ∧
    text = stringify_schema
             (synthesize (to_type_counts nodeRows) lp (to_type_counts relRows) lrp d).
Proof.
  unfold schema_body, mbind, M_bind, mret, M_ret, lift.
  destruct (ask _ w) as [[?|nodeRows] w1]; [done|].
  destruct (ask _ w1) as [[?|nodePropertyRows] w2]; [done|].
  destruct (ask _ w2) as [[?|relRows] w3]; [done|].
  destruct (ask _ w3) as [[?|relPropertyRows] w4]; [done|].
  destruct (collect_properties _ nodePropertyRows) as [?|lp] eqn:Hlp; [done|].
  destruct (collect_properties _ relPropertyRows) as [?|lrp] eqn:Hlrp; [done|].
  intros [= <- <-]. by exists nodeRows, nodePropertyRows, relRows, relPropertyRows, lp, lrp.
Qed.

Lemma getNeo4jSchema_returns d w text w' :
  getNeo4jSchema d w = (inr text, w') →
  ∃ nodeRows nodePropertyRows relRows relPropertyRows lp lrp,
    collect_properties "nodeProperties[label]" nodePropertyRows = inr lp ∧
    collect_properties "relationshipProperties[relType]" relPropertyRows = inr lrp ∧
    text = stringify_schema
             (synthesize (to_type_counts nodeRows) lp (to_type_counts relRows) lrp d).
Proof.
  unfold getNeo4jSchema, mbind, M_bind.
  destruct (getDriver w) as [[?|h] w1]; [done|].
  unfold with_session. destruct (open_session h w1) as [[?|session] w2]; [done|].
  unfold try_finally, try_catch.
  destruct (schema_body d session w2) as [[?|text'] w3] eqn:Hbody; simpl.
  - by destruct (call _ _ w3) as [[?|?] ?].
  - destruct (call _ _ w3) as [[?|?] ?]; [done|]. intros [= <- <-].
    by eapply schema_body_returns.
Qed.

(** Every text a scoped call of [getNeo4jSchema] returns serialises an
    output without orphans. *)
Lemma getNeo4jSchema_scoped_orphan_free d w text w' :
  getNeo4jSchema d w = (inr text, w') → valid_domains d ≠ [] →
  ∃ out, text = stringify_schema out ∧ orphan_free out.
Proof.
  intros (nodeRows & _ & relRows & _ & lp & lrp & _ & _ & ->)%getNeo4jSchema_returns Hv.
  eexists. split; [done|]. by apply synthesize_scoped_orphan_free.
Qed.

(** C4. A requested identifier outside code, mind, crypto and media is
    dropped: the request behaves as the request for the valid identifiers
    alone, with the same outcome and no error of its own; and when no
    valid identifier is left, it behaves as the request without a domain. *)
Theorem C4_lenient_fallback ln lp lr lrp d w :
  (∀ x, x ∈ valid_domains d ↔ x ∈ as_array d ∧ x ∈ KNOWN_DOMAINS) ∧
  synthesize ln lp lr lrp d = synthesize ln lp lr lrp (DomArray (valid_domains d)) ∧
  getNeo4jSchema d w = getNeo4jSchema (DomArray (valid_domains d)) w ∧
  (valid_domains d = [] →
     synthesize ln lp lr lrp d = synthesize ln lp lr lrp DomUndefined ∧
     getNeo4jSchema d w = getNeo4jSchema DomUndefined w).
Proof.
  split_and!.
  - intros x. unfold valid_domains. rewrite list_elem_of_filter. tauto.
  - apply synthesize_valid.
  - apply getNeo4jSchema_ext. intros. apply synthesize_valid.
  - intros Hv. split; [by apply synthesize_fallback|].
    apply getNeo4jSchema_ext. intros. by apply synthesize_fallback.
Qed.

(** C8. Once the handle is null, because it was never created or because
    a teardown has completed, [closeDriver] returns at once, without an
    error and without touching anything. *)
Theorem C8_closeDriver_idempotent w :
  driver w = None ∨ (∃ w0, closeDriver w0 = (inr (), w)) →
  closeDriver w = (inr (), w).
Proof.
  intros Hcase. assert (driver w = None) as Hd.
  { destruct Hcase as [?|[w0 Hclose]]; [done|].
    unfold closeDriver in Hclose. destruct (driver w0) as [h|] eqn:Hd0.
    - destruct (driver_close h (store w0)) as [[error|] st]; [done|].
      by injection Hclose as <-.
    - by injection Hclose as <-. }
  unfold closeDriver. by rewrite Hd.
Qed.

Lemma op_effect_released w w' :
  op_effect w w' → ∃ evs, events w' = evs ++ events w ∧ sessions_released evs.
Proof.
  intros (_ & evs & Htrace & [(_ & _ & Hev)|(_ & _ & _ & _ & Hev)]).
  - exists (evs ++ []). rewrite app_nil_r. split; [done|].
    rewrite <-(app_nil_r evs). apply session_trace_released; [done|].
    by intros h sid ?%elem_of_nil.
  - exists (evs ++ [NewDriver (drivers w)]). rewrite <-app_assoc. split; [done|].
    apply session_trace_released; [done|].
    by intros h sid [=]%list_elem_of_singleton.
Qed.

(** C9. Neither tool handler ever throws: an error of the operation behind
    it comes back as a result that carries the message and the flag
    [isError], and on every path, the failing ones included, each session
    the call opened has been closed. *)
Theorem C9_router_catches w :
  (∀ query params, ∃ r w',
     run_cypher_query query params w = (inr r, w') ∧
     match runCypherQuery query (default [] params) w with
     | (inl error, _) =>
         r = mkToolResult ("Error running query: " +:+ message_of error) true
     | (inr resultJsonString, _) => r = mkToolResult resultJsonString false
     end ∧
     ∃ evs, events w' = evs ++ events w ∧ sessions_released evs) ∧
  (∀ domain, ∃ r w',
     get_graph_schema domain w = (inr r, w') ∧
     match getNeo4jSchema domain w with
     | (inl error, _) =>
         r = mkToolResult ("Error getting schema: " +:+ message_of error) true
     | (inr schemaJsonString, _) => r = mkToolResult schemaJsonString false
     end ∧
     ∃ evs, events w' = evs ++ events w ∧ sessions_released evs).
Proof.
  split.
  - intros query params.
    pose proof (runCypherQuery_effect query (default [] params) w) as Heff.
    unfold run_cypher_query. rewrite try_catch_ret.
    destruct (runCypherQuery query (default [] params) w) as [[error|x] w'];
      eexists _, _; (split_and!; [done|done|by apply op_effect_released]).
  - intros domain.
    pose proof (getNeo4jSchema_effect domain w) as Heff.
    unfold get_graph_schema. rewrite try_catch_ret.
    destruct (getNeo4jSchema domain w) as [[error|x] w'];
      eexists _, _; (split_and!; [done|done|by apply op_effect_released]).
Qed.

(** C10. In every state the process can reach, the handle variable is null
    or holds the driver created last, not yet closed. While it holds a
    driver, [getDriver] returns that driver and changes nothing, and every
    operation but the teardown leaves it in place. After a teardown that
    completed, the variable is null, and the next operation puts a driver
    in it that did not exist before and has not been closed. *)
Theorem C10_handle_lifecycle w :
  reachable w →
  handle_invariant w ∧
  (∀ h, driver w = Some h →
     getDriver w = (inr h, w) ∧
     ∀ op, op ≠ OpCloseDriver →
       driver (run_op op w) = Some h ∧ last_created (events (run_op op w)) = Some h) ∧
  (∀ h w', driver w = Some h → closeDriver w = (inr (), w') →
     driver w' = None ∧ CloseDriver h true ∈ events w' ∧
     ∀ op, op ≠ OpCloseDriver →
       ∃ h', driver (run_op op w') = Some h' ∧ h' ≠ h ∧
             (NewDriver h' ∉ events w') ∧ NewDriver h' ∈ events (run_op op w') ∧
             CloseDriver h' true ∉ events (run_op op w')).
Proof.
  intros Hreach. pose proof (reachable_well_formed w Hreach) as Hwf.
  destruct Hwf as (Hinv & Hlast & Hclose & Hnew & Hconf).
  split; [done|]. split.
  - intros h Hd. unfold handle_invariant in Hinv. rewrite Hd in Hinv.
    destruct Hinv as [Hh Hopen].
    assert (drivers w = S h) as Hn.
    { rewrite Hh in Hlast. destruct (drivers w); by simplify_eq. }
    destruct Hconf as (Huri & Huser & Hpw & _); [lia|].
    split; [by apply getDriver_reuse|].
    intros op Hop. destruct (run_op_effect op w Hop) as (_ & evs & Htrace & Hcase).
    destruct Hcase as [(Hd' & _ & Hev)|(Hnone & _)]; [|congruence].
    rewrite Hd', Hev, session_trace_last_created by done. by split.
  - intros h w' Hd Hdone. unfold handle_invariant in Hinv. rewrite Hd in Hinv.
    destruct Hinv as [Hh Hopen].
    assert (drivers w = S h) as Hn.
    { rewrite Hh in Hlast. destruct (drivers w); by simplify_eq. }
    assert (reachable w') as Hreach'.
    { replace w' with (run_op OpCloseDriver w); [by constructor|]. simpl. by rewrite Hdone. }
    unfold closeDriver in Hdone. rewrite Hd in Hdone.
    destruct (driver_close h (store w)) as [[error|] st]; [done|].
    injection Hdone as <-. simpl. split_and!; [done|left|].
    intros op Hop.
    set (w' := mkWorld (env w) None st (drivers w) (sessions w)
                 (CloseDriver h true :: events w)) in *.
    assert (configured w') as Hconf' by (apply (configured_env w); [done|apply Hconf; lia]).
    exists (S h). split_and!.
    + rewrite <-Hn. by apply (run_op_creates op w').
    + lia.
    + intros [?|Hin%Hnew]%elem_of_cons; [done|lia].
    + destruct (run_op_effect op w' Hop) as (_ & evs & Htrace & Hcase).
      destruct Hcase as [(Hd' & _)|(_ & _ & _ & _ & ->)].
      * rewrite (run_op_creates op w') in Hd' by done. done.
      * apply elem_of_app. right. simpl. rewrite Hn. left.
    + pose proof (reachable_well_formed _ (reachable_step op w' Hreach')) as (Hinv' & _).
      unfold handle_invariant in Hinv'.
      rewrite (run_op_creates op w') in Hinv' by done. simpl in Hinv'. rewrite Hn in Hinv'.
      apply Hinv'.
Qed.

End RouterClaims.

Lemma C4_lenient_fallback_witness :
  synthesize (to_type_counts [("Song", 2)]) ∅ [] ∅ (DomArray ["not-a-real-domain"])
  = synthesize (to_type_counts [("Song", 2)]) ∅ [] ∅ DomUndefined ∧
  getNeo4jSchema (DomArray ["not-a-real-domain"]) demo_started
  = getNeo4jSchema DomUndefined demo_started.
Proof.
  apply (C4_lenient_fallback (to_type_counts [("Song", 2)]) ∅ [] ∅
           (DomArray ["not-a-real-domain"]) demo_started).
  reflexivity.
Defined.

Lemma C8_closeDriver_idempotent_witness :
  closeDriver (closeDriver demo_started).2 = (inr (), (closeDriver demo_started).2).
Proof.
  apply C8_closeDriver_idempotent. right. exists demo_started. reflexivity.
Defined.

Lemma C10_handle_lifecycle_witness :
  handle_invariant demo_started ∧
  getDriver demo_started = (inr 0%nat, demo_started) ∧
  driver (run_op (OpRunQuery "RETURN 1" None) (run_op OpCloseDriver demo_started))
  = Some 1%nat.
Proof.
  destruct (C10_handle_lifecycle demo_started) as (Hinv & Hreuse & _).
  { apply (reachable_step OpCheckConnectivity), reachable_initial. }
  split_and!; [exact Hinv|by apply (Hreuse 0%nat)|reflexivity].
Defined.

(** A query the store rejects comes back as a failure payload, and the
    session of the attempt is closed. *)
Example failing_query_payload :
  (run_cypher_query "" None demo_started).1
  = inr (mkToolResult
           "Error running query: Failed to execute Cypher query: Invalid input" true) ∧
  events (run_cypher_query "" None demo_started).2
  = [CloseSession 0; NewSession 0 0; NewDriver 0].
Proof. split; reflexivity. Qed.

(** Without the connection values nothing reaches the library, and the
    handler still answers. *)
Example unconfigured_payload :
  get_graph_schema DomUndefined (initial (mkEnv None None None) 0%nat)
  = (inr (mkToolResult ("Error getting schema: " +:+ MISSING_DETAILS) true),
     initial (mkEnv None None None) 0%nat).
Proof. reflexivity. Qed.

(** * Further properties of the code *)

(** ** Normalising the property rows (lines 212-220, 227-235) *)

Lemma collect_properties_snoc what records r :
  collect_properties what (records ++ [r])
  = collect_step what (collect_properties what records) r.
Proof. unfold collect_properties. by rewrite fold_left_app. Qed.

Lemma elem_of_fst_snoc (records : list (string * list string)) label props x :
  x ∈ (records ++ [(label, props)]).*1 ↔ x ∈ records.*1 ∨ x = label.
Proof. by rewrite fmap_snoc, elem_of_app, list_elem_of_singleton. Qed.

Lemma elem_of_snoc_pair (records : list (string * list string)) label props l ps :
  (l, ps) ∈ records ++ [(label, props)] ↔ (l, ps) ∈ records ∨ (l = label ∧ ps = props).
Proof.
  rewrite elem_of_app, list_elem_of_singleton. split.
  - intros [?|[= -> ->]]; auto.
  - intros [?|[-> ->]]; auto.
Qed.

(** What the loop has built after any number of rows. *)
Lemma collect_properties_inv what records :
  match collect_properties what records with
  | inr index =>
      dom index = list_to_set records.*1 ∧
      (∀ label, label ∈ records.*1 → label ∉ OBJECT_PROTOTYPE_KEYS) ∧
      (∀ label ps, index !! label = Some ps →
         NoDup ps ∧ ∀ p, p ∈ ps ↔ ∃ props, (label, props) ∈ records ∧ p ∈ props)
  | inl error =>
      error = Error (what +:+ " is not iterable") ∧
      ∃ label, label ∈ records.*1 ∧ label ∈ OBJECT_PROTOTYPE_KEYS
  end.
Proof.
  induction records as [|[label props] records IH] using rev_ind.
  { simpl. split_and!; [by rewrite dom_empty_L|by intros ? ?%elem_of_nil|].
    intros label ps Hl. by rewrite lookup_empty in Hl. }
  rewrite collect_properties_snoc.
  destruct (collect_properties what records) as [error|index]; simpl.
  { destruct IH as (-> & l & Hl & Hproto). split; [done|].
    exists l. split; [|done]. apply elem_of_fst_snoc. by left. }
  destruct IH as (Hdom & Hown & Hvals).
  assert (∀ ps0, dom (<[label := ps0]> index)
                 = list_to_set (records ++ [(label, props)]).*1) as Hdom'.
  { intros ps0. rewrite dom_insert_L, Hdom. apply set_eq. intros x.
    rewrite elem_of_union, elem_of_singleton, !elem_of_list_to_set, elem_of_fst_snoc.
    tauto. }
  destruct (index !! label) as [old|] eqn:Hlabel.
  - split_and!; [apply Hdom'| |].
    + intros l [Hl| ->]%elem_of_fst_snoc; [by apply Hown|].
      apply Hown. apply (elem_of_list_to_set (C:=gset string)).
      rewrite <-Hdom. apply elem_of_dom. eauto.
    + intros l ps. destruct (decide (l = label)) as [->|Hne].
      * rewrite lookup_insert_eq. intros [= <-]. split; [apply NoDup_set_of|].
        intros p. rewrite elem_of_set_of, elem_of_app.
        destruct (Hvals label old Hlabel) as [_ Hold]. rewrite Hold. split.
        -- intros [(props' & Hin & Hp)|Hp].
           ++ exists props'. split; [|done]. apply elem_of_snoc_pair. by left.
           ++ exists props. split; [|done]. apply elem_of_snoc_pair. by right.
        -- intros (props' & [Hin|[_ ->]]%elem_of_snoc_pair & Hp); eauto.
      * rewrite lookup_insert_ne by done. intros Hl.
        destruct (Hvals l ps Hl) as [Hnd Hps]. split; [done|].
        intros p. rewrite Hps. split.
        -- intros (props' & Hin & Hp). exists props'. split; [|done].
           apply elem_of_snoc_pair. by left.
        -- intros (props' & [Hin|[? _]]%elem_of_snoc_pair & Hp); [eauto|done].
  - destruct (decide (label ∈ OBJECT_PROTOTYPE_KEYS)) as [Hproto|Hproto].
    { split; [done|]. exists label. split; [|done]. apply elem_of_fst_snoc. by right. }
    assert (label ∉ records.*1) as Hfresh.
    { rewrite <-(elem_of_list_to_set (C:=gset string)), <-Hdom.
      by apply not_elem_of_dom. }
    split_and!; [apply Hdom'| |].
    + intros l [Hl| ->]%elem_of_fst_snoc; [by apply Hown|done].
    + intros l ps. destruct (decide (l = label)) as [->|Hne].
      * rewrite lookup_insert_eq. intros [= <-]. split; [apply NoDup_set_of|].
        intros p. rewrite elem_of_set_of. simpl. split.
        -- intros Hp. exists props. split; [|done]. apply elem_of_snoc_pair. by right.
        -- intros (props' & [Hin|[_ ->]]%elem_of_snoc_pair & Hp); [|done].
           exfalso. apply Hfresh. apply list_elem_of_fmap. by exists (label, props').
      * rewrite lookup_insert_ne by done. intros Hl.
        destruct (Hvals l ps Hl) as [Hnd Hps]. split; [done|].
        intros p. rewrite Hps. split.
        -- intros (props' & Hin & Hp). exists props'. split; [|done].
           apply elem_of_snoc_pair. by left.
        -- intros (props' & [Hin|[? _]]%elem_of_snoc_pair & Hp); [eauto|done].
Qed.

(** The property loop throws exactly when some row carries a label that
    is the name of a property inherited from [Object.prototype]
    ("constructor", "toString", ...); the error is the engine's complaint
    that the inherited value cannot be spread. *)
Theorem collect_properties_throws what records :
  (∃ label, label ∈ records.*1 ∧ label ∈ OBJECT_PROTOTYPE_KEYS) ↔
  collect_properties what records = inl (Error (what +:+ " is not iterable")).
Proof.
  pose proof (collect_properties_inv what records) as Hinv.
  destruct (collect_properties what records) as [error|index].
  - destruct Hinv as [-> Hex]. by split.
  - destruct Hinv as (_ & Hown & _). split; [|done].
    intros (label & Hl & Hproto). by destruct (Hown label Hl).
Qed.

(** When the property loop completes, the index has one key per label
    among the rows, and under each key the properties of all the rows of
    that label, each once. *)
Theorem collect_properties_index what records index :
  collect_properties what records = inr index →
  dom index = list_to_set records.*1 ∧
  ∀ label ps, index !! label = Some ps →
    NoDup ps ∧ ∀ p, p ∈ ps ↔ ∃ props, (label, props) ∈ records ∧ p ∈ props.
Proof.
  intros Heq. pose proof (collect_properties_inv what records) as Hinv.
  rewrite Heq in Hinv. destruct Hinv as (Hdom & _ & Hvals). by split.
Qed.

Lemma collect_properties_index_witness :
  dom ({["A" := ["p"; "q"; "r"]; "B" := []]} : PropertyIndex)
  = list_to_set [("A", ["p"; "q"]); ("B", []); ("A", ["q"; "r"])].*1.
Proof.
  apply (collect_properties_index "nodeProperties[label]"
           [("A", ["p"; "q"]); ("B", []); ("A", ["q"; "r"])]).
  by vm_compute.
Defined.

(** ** The parameter walk (lines 50-72) *)

Lemma process_item_number_free item :
  number_free item = true → process_item item = inject item.
Proof. by destruct item. Qed.

Lemma process_value_number_free j :
  number_free j = true → plain_keys j = true → process_value j = inject j.
Proof.
  induction j as [| | | |items IH|entries IH] using Json_induction; try done.
  - intros Hfree _. simpl in *. f_equal.
    apply map_ext_in. intros item Hin. apply process_item_number_free.
    rewrite forallb_forall in Hfree. auto.
  - intros Hfree [Hkeys Hnested]%plain_keys_entries.
    cbn [process_value inject]. rewrite assign_entries_plain by done. f_equal.
    apply map_ext_in. intros [k v] Hin. simpl. f_equal.
    rewrite Forall_forall in IH. apply (IH (k, v)).
    + by apply list_elem_of_In.
    + simpl in Hfree. rewrite forallb_forall in Hfree. by apply (Hfree (k, v)).
    + by apply (Hnested (k, v)).
Qed.

(** Parameters that hold no number at any depth (and no [__proto__] key)
    are submitted exactly as they were given: strings, booleans, nulls,
    and the arrays and objects made of them are never altered. *)
Theorem processParams_number_free params :
  number_free (JObject params) = true → plain_keys (JObject params) = true →
  processParams params = inject (JObject params).
Proof. intros Hfree Hkeys. by apply (process_value_number_free (JObject params)). Qed.

Lemma processParams_number_free_witness :
  processParams [("name", JString "Ada"); ("tags", JArray [JArray [JNull]; JBool true])]
  = inject (JObject [("name", JString "Ada"); ("tags", JArray [JArray [JNull]; JBool true])]).
Proof. apply processParams_number_free; reflexivity. Defined.

Lemma processParams_flat_witness :
  processParams [("skip", JNumber (Finite (7 # 2)));
                 ("page", JObject [("sizes", JArray [JNumber (Finite (5 # 2)); JString "all"])])]
  = normalize_params
      [("skip", JNumber (Finite (7 # 2)));
       ("page", JObject [("sizes", JArray [JNumber (Finite (5 # 2)); JString "all"])])].
Proof. apply processParams_flat; reflexivity. Defined.




(** 10^19 is past the range and is submitted as the upper bound; NaN and
    the infinities (a literal such as 1e999 parses to Infinity) are
    submitted as 0. *)
Example processParams_saturates :
  processParams [("big", JNumber (Finite 10000000000000000000));
                 ("low", JNumber (Finite (-10000000000000000000)));
                 ("inf", JNumber PosInfinity); ("nan", JNumber NaN)]
  = VObject OrdinaryPrototype
      [("big", VInt 9223372036854775807); ("low", VInt (-9223372036854775808));
       ("inf", VInt 0); ("nan", VInt 0)].
Proof. reflexivity. Qed.

(** An entry named [__proto__] creates no property; when its processed
    value is an object, the Integer of a number included, that object
    becomes the prototype of what is submitted. *)
Example processParams_proto :
  processParams [("__proto__", JNumber (Finite 5)); ("a", JString "x")]
  = VObject (ReplacedPrototype (VInt 5)) [("a", VString "x")].
Proof. reflexivity. Qed.

(** ** The scoped output (lines 255-330) *)

Lemma fold_set_add_absorb l acc :
  (∀ x, x ∈ l → x ∈ acc) → fold_left set_add l acc = acc.
Proof.
  induction l as [|a l IH]; intros Hsub; [done|]. simpl.
  unfold set_add at 2. rewrite decide_True by (apply Hsub; left).
  apply IH. intros x Hx. apply Hsub. by right.
Qed.

Lemma gather_snoc table ds d :
  gather table (ds ++ [d]) = fold_left set_add (table !!! d) (gather table ds).
Proof.
  rewrite !gather_eq, fmap_snoc, concat_app. simpl. rewrite app_nil_r.
  unfold set_of. by rewrite fold_left_app.
Qed.

Lemma gather_set_of table ds : gather table (set_of ds) = gather table ds.
Proof.
  induction ds as [|d ds IH] using rev_ind; [done|].
  rewrite set_of_snoc, gather_snoc. unfold set_add. case_decide as Hd.
  - rewrite IH. symmetry. apply fold_set_add_absorb.
    intros x Hx. apply elem_of_gather. exists d. split; [|done].
    by apply elem_of_set_of.
  - by rewrite gather_snoc, IH.
Qed.

Lemma filter_set_of (P : string → Prop) `{!∀ x, Decision (P x)} l :
  filter P (set_of l) = set_of (filter P l).
Proof.
  induction l as [|a l IH] using rev_ind; [done|].
  rewrite set_of_snoc, filter_app. unfold set_add.
  destruct (decide (P a)) as [Ha|Ha].
  - rewrite (filter_cons_True P a []) by done. rewrite filter_nil, set_of_snoc.
    unfold set_add. case_decide as Hin.
    + rewrite decide_True; [done|].
      apply elem_of_set_of, list_elem_of_filter. split; [done|].
      by apply elem_of_set_of.
    + rewrite decide_False.
      * rewrite filter_app, (filter_cons_True P a []) by done. by rewrite IH.
      * rewrite elem_of_set_of, list_elem_of_filter. intros [_ ?].
        by apply Hin, elem_of_set_of.
  - rewrite (filter_cons_False P a []) by done. rewrite filter_nil, app_nil_r.
    case_decide; [done|].
    rewrite filter_app, (filter_cons_False P a []) by done.
    by rewrite filter_nil, app_nil_r.
Qed.

(** Naming a domain more than once changes nothing but the echoed
    [domains] field: the four schema structures are those of the request
    with each domain named once. *)
Theorem synthesize_repeated_domains ln lp lr lrp ds :
  let out := synthesize ln lp lr lrp (DomArray ds) in
  let once := synthesize ln lp lr lrp (DomArray (set_of ds)) in
  nodeTypes out = nodeTypes once ∧
  nodeProperties out = nodeProperties once ∧
  relationshipTypes out = relationshipTypes once ∧
  relationshipProperties out = relationshipProperties once.
Proof.
  intros out once. subst out once.
  assert (valid_domains (DomArray (set_of ds)) = set_of (valid_domains (DomArray ds)))
    as Hvalid by apply filter_set_of.
  destruct (decide (valid_domains (DomArray ds) = [])) as [Hv|Hv].
  - rewrite (synthesize_unscoped _ _ _ _ (DomArray ds)) by done.
    by rewrite (synthesize_unscoped _ _ _ _ (DomArray (set_of ds)))
      by (by rewrite Hvalid, Hv).
  - assert (valid_domains (DomArray (set_of ds)) ≠ []) as Hv'.
    { rewrite Hvalid. intros Hnil. apply Hv. apply elem_of_nil_inv.
      intros x Hx. apply elem_of_set_of in Hx. rewrite Hnil in Hx.
      by apply elem_of_nil in Hx. }
    rewrite (synthesize_scoped _ _ _ _ (DomArray ds)) by done.
    rewrite (synthesize_scoped _ _ _ _ (DomArray (set_of ds))) by done.
    simpl. by rewrite Hvalid, !gather_set_of.
Qed.

(** The scoped list of type counts is laid out in two runs: first the
    live entries whose name the taxonomy lists, in the order the store
    returned them and with their live counts, then the zero entries, in
    the order of the taxonomy union. *)
Theorem scoped_types_layout ln lp lr lrp d :
  valid_domains d ≠ [] →
  let out := synthesize ln lp lr lrp d in
  let unionN := gather DOMAIN_NODE_TYPES (valid_domains d) in
  let unionR := gather DOMAIN_RELATIONSHIP_TYPES (valid_domains d) in
  nodeTypes out
  = filter (λ nt, type nt ∈ unionN) ln
    ++ ((λ t, mkTypeCount t 0) <$> filter (λ t, t ∉ type <$> ln) unionN) ∧
  relationshipTypes out
  = filter (λ nt, type nt ∈ unionR) lr
    ++ ((λ t, mkTypeCount t 0) <$> filter (λ t, t ∉ type <$> lr) unionR).
Proof.
  intros Hv out unionN unionR. subst out. rewrite synthesize_scoped by done. simpl.
  assert (∀ live (all : list string),
            filter (λ t, t ∉ names live) all
            = filter (λ t, t ∉ type <$> live) all) as Hfilter.
  { intros live all. apply list_filter_iff. intros t. by rewrite elem_of_names. }
  by rewrite !complete_types_eq, !Hfilter.
Qed.

Lemma scoped_types_layout_witness :
  nodeTypes (synthesize (to_type_counts [("Ghost", 9); ("Task", 2); ("Agent", 5)]) ∅ [] ∅
               (DomString "mind"))
  = to_type_counts [("Task", 2); ("Agent", 5)]
    ++ ((λ t, mkTypeCount t 0) <$>
          ["Hypothesis"; "Reflection"; "Insight"; "Question"; "Decision"; "Pattern";
           "Subtask"; "Verification"; "Result"; "Orientation"]).
Proof.
  destruct (scoped_types_layout (to_type_counts [("Ghost", 9); ("Task", 2); ("Agent", 5)])
              ∅ [] ∅ (DomString "mind")) as [-> _].
  - vm_compute. discriminate.
  - by vm_compute.
Defined.

Lemma NoDup_names_complete live all :
  NoDup (type <$> live) → NoDup all → NoDup (type <$> complete_types live all).
Proof.
  intros Hlive Hall. rewrite complete_types_eq, fmap_app. apply NoDup_app. split_and!.
  - apply (sublist_NoDup _ (type <$> live)); [done|].
    apply fmap_sublist, sublist_filter.
  - intros n (nt & -> & [_ Hnt]%list_elem_of_filter)%list_elem_of_fmap.
    rewrite <-list_fmap_compose.
    intros (t & Heq & [Ht _]%list_elem_of_filter)%list_elem_of_fmap.
    simpl in Heq. subst t. apply Ht, elem_of_names. by apply list_elem_of_fmap_2.
  - rewrite <-list_fmap_compose.
    replace (type ∘ (λ t, mkTypeCount t 0)) with (@id string) by done.
    rewrite list_fmap_id. by apply NoDup_filter.
Qed.

(** When the store reports each label once, the names of the scoped list
    of type counts are a rearrangement of the taxonomy union: one entry
    per declared name, none for anything else. *)
Theorem scoped_names_permutation ln lp lr lrp d :
  valid_domains d ≠ [] → NoDup (type <$> ln) → NoDup (type <$> lr) →
  let out := synthesize ln lp lr lrp d in
  type <$> nodeTypes out ≡ₚ gather DOMAIN_NODE_TYPES (valid_domains d) ∧
  type <$> relationshipTypes out ≡ₚ gather DOMAIN_RELATIONSHIP_TYPES (valid_domains d).
Proof.
  intros Hv Hln Hlr out. subst out. rewrite synthesize_scoped by done. simpl.
  assert (∀ live all, NoDup (type <$> live) → NoDup all →
            type <$> complete_types live all ≡ₚ all) as Hperm.
  { intros live all Hlive Hall. apply NoDup_Permutation; [|done|].
    - by apply NoDup_names_complete.
    - intros n. by rewrite <-elem_of_names, names_complete_types, elem_of_list_to_set. }
  split; (apply Hperm; [done|apply gather_union]).
Qed.

Lemma scoped_names_permutation_witness :
  length (nodeTypes (synthesize (to_type_counts [("Ghost", 9); ("Task", 2)]) ∅ [] ∅
                       (DomArray ["crypto"; "media"])))
  = length (gather DOMAIN_NODE_TYPES ["crypto"; "media"]).
Proof.
  destruct (scoped_names_permutation (to_type_counts [("Ghost", 9); ("Task", 2)]) ∅ [] ∅
              (DomArray ["crypto"; "media"])) as [Hperm _].
  - vm_compute. discriminate.
  - apply (bool_decide_unpack _). by vm_compute.
  - constructor.
  - rewrite <-(length_fmap type). by apply Permutation_length in Hperm.
Defined.

(** Scoping only selects, for node types and relationship types alike: a
    name outside the taxonomy union has no entry and no key in the scoped
    output, and a name inside it keeps its live entries, counts included,
    and its live property list. *)
Theorem scoped_selects_live ln lp lr lrp d n :
  valid_domains d ≠ [] →
  let out := synthesize ln lp lr lrp d in
  let unionN := gather DOMAIN_NODE_TYPES (valid_domains d) in
  let unionR := gather DOMAIN_RELATIONSHIP_TYPES (valid_domains d) in
  (n ∉ unionN → entries_named n (nodeTypes out) = [] ∧ nodeProperties out !! n = None) ∧
  (n ∈ unionN →
     (n ∈ type <$> ln → entries_named n (nodeTypes out) = entries_named n ln) ∧
     (∀ ps, lp !! n = Some ps → nodeProperties out !! n = Some ps)) ∧
  (n ∉ unionR →
     entries_named n (relationshipTypes out) = [] ∧
     relationshipProperties out !! n = None) ∧
  (n ∈ unionR →
     (n ∈ type <$> lr → entries_named n (relationshipTypes out) = entries_named n lr) ∧
     (∀ ps, lrp !! n = Some ps → relationshipProperties out !! n = Some ps)).
Proof.
  intros Hv out unionN unionR. subst out. rewrite synthesize_scoped by done. simpl.
  fold unionN unionR.
  assert (∀ live (props : PropertyIndex) all, NoDup all →
            (n ∉ all → entries_named n (complete_types live all) = [] ∧
                       filter_properties props all !! n = None) ∧
            (n ∈ all →
               (n ∈ type <$> live →
                  entries_named n (complete_types live all) = entries_named n live) ∧
               (∀ ps, props !! n = Some ps → filter_properties props all !! n = Some ps)))
    as Hselect.
  { intros live props all Hnd. split.
    - intros Hn. split.
      + apply entries_named_absent. rewrite <-elem_of_names, names_complete_types.
        by rewrite elem_of_list_to_set.
      + by rewrite lookup_filter_properties, decide_False.
    - intros Hn. split.
      + intros Hlive. rewrite entries_named_complete by done. by rewrite decide_True.
      + intros ps Hps. rewrite lookup_filter_properties, decide_True by done.
        by rewrite Hps. }
  destruct (Hselect ln lp unionN) as [? ?]; [apply gather_union|].
  destruct (Hselect lr lrp unionR) as [? ?]; [apply gather_union|].
  by split_and!.
Qed.

Lemma scoped_selects_live_witness :
  let out := synthesize (to_type_counts [("Ghost", 9); ("Task", 2)])
               {["Ghost" := ["since"]; "Task" := ["title"]]}
               (to_type_counts [("HAUNTS", 3); ("REFINES", 1)])
               {["HAUNTS" := ["at"]; "REFINES" := ["why"]]} (DomString "mind") in
  (entries_named "Ghost" (nodeTypes out) = [] ∧ nodeProperties out !! "Ghost" = None) ∧
  (entries_named "HAUNTS" (relationshipTypes out) = [] ∧
   relationshipProperties out !! "HAUNTS" = None).
Proof.
  intros out.
  destruct (scoped_selects_live (to_type_counts [("Ghost", 9); ("Task", 2)])
              {["Ghost" := ["since"]; "Task" := ["title"]]}
              (to_type_counts [("HAUNTS", 3); ("REFINES", 1)])
              {["HAUNTS" := ["at"]; "REFINES" := ["why"]]} (DomString "mind") "Ghost")
    as (HN & _); [vm_compute; discriminate|].
  destruct (scoped_selects_live (to_type_counts [("Ghost", 9); ("Task", 2)])
              {["Ghost" := ["since"]; "Task" := ["title"]]}
              (to_type_counts [("HAUNTS", 3); ("REFINES", 1)])
              {["HAUNTS" := ["at"]; "REFINES" := ["why"]]} (DomString "mind") "HAUNTS")
    as (_ & _ & HR & _); [vm_compute; discriminate|].
  split; [apply HN|apply HR]; apply (bool_decide_unpack _); by vm_compute.
Defined.

(** ** The handle, the sessions and the errors of the client *)

Lemma sessions_released_app a b :
  sessions_released a → sessions_released b → sessions_released (a ++ b).
Proof.
  intros Ha Hb h sid later earlier Heq.
  apply app_eq_inv in Heq as [(k & -> & Hk)|(k & -> & ->)].
  - destruct k as [|e k]; simpl in Hk.
    + symmetry in Hk. by apply (Hb h sid [] earlier) in Hk as ?%elem_of_nil.
    + injection Hk as <- ->. by apply (Ha h sid later k).
  - apply elem_of_app. right. by apply (Hb h sid k earlier).
Qed.

Lemma sessions_released_close_driver h b : sessions_released [CloseDriver h b].
Proof. intros h' sid [|e [|e' later]] earlier Heq; simplify_eq. Qed.

Section ClientExtras.
Context {Store : Type} `{!Library Store}.
Implicit Types w : World Store.

(** When one of the three connection values is unset or empty,
    [getDriver] throws the missing-details error and touches nothing; the
    test comes first, so this holds even while a driver is in the handle. *)
Theorem getDriver_missing_details w :
  present (NEO4J_URI (env w)) && present (NEO4J_USER (env w))
    && present (NEO4J_PASSWORD (env w)) = false →
  getDriver w = (inl (Error MISSING_DETAILS), w).
Proof.
  unfold getDriver.
  by destruct (present (NEO4J_URI (env w))), (present (NEO4J_USER (env w))),
    (present (NEO4J_PASSWORD (env w))).
Qed.

(** Once [getDriver] has returned a driver, calling it again returns the
    same driver and changes nothing: the driver is created at most once
    per teardown. *)
Theorem getDriver_idempotent w h w1 :
  getDriver w = (inr h, w1) → getDriver w1 = (inr h, w1).
Proof.
  unfold getDriver.
  destruct (present (NEO4J_URI (env w))) eqn:Huri; [|done].
  destruct (present (NEO4J_USER (env w))) eqn:Huser; [|done].
  destruct (present (NEO4J_PASSWORD (env w))) eqn:Hpw; [|done]. simpl.
  destruct (driver w) as [h0|] eqn:Hd.
  - intros [= <- <-]. by rewrite Huri, Huser, Hpw, Hd.
  - destruct (neo4j_driver _ _ _) as [error|]; [done|].
    intros [= <- <-]. simpl. by rewrite Huri, Huser, Hpw.
Qed.

Lemma getDriver_handle w h w1 : getDriver w = (inr h, w1) → driver w1 = Some h.
Proof.
  unfold getDriver.
  destruct (negb _ || negb _ || negb _); [done|].
  destruct (driver w) as [h0|] eqn:Hd; [by intros [= <- <-]|].
  destruct (neo4j_driver _ _ _) as [error|]; [done|]. by intros [= <- <-].
Qed.

(** A teardown that completes leaves the handle null. A teardown whose
    [driver.close()] throws passes the error on and leaves the driver in
    the handle, so that a later call tries to close it again. *)
Theorem closeDriver_outcome w :
  match closeDriver w with
  | (inr _, w') => driver w' = None
  | (inl error, w') =>
      ∃ h, driver w = Some h ∧ driver w' = Some h ∧
           (driver_close h (store w)).1 = Some error
  end.
Proof.
  unfold closeDriver. destruct (driver w) as [h|] eqn:Hd; [|done].
  destruct (driver_close h (store w)) as [[error|] st] eqn:Hclose; [|done].
  simpl. exists h. by rewrite Hclose.
Qed.

(** The connectivity check answers [true] or throws, never [false]; what
    [verifyConnectivity] throws comes out as an [Error] whose message
    starts with "Neo4j connection failed: "; and the check opens no
    session. *)
Theorem checkNeo4jConnectivity_outcome w :
  match checkNeo4jConnectivity w with
  | (inr answer, w') =>
      answer = true ∧
      ∃ h w1, getDriver w = (inr h, w1) ∧
              (driver_verifyConnectivity h (store w1)).1 = None ∧
              events w' = events w1 ∧ sessions w' = sessions w1
  | (inl error, w') =>
      getDriver w = (inl error, w') ∨
      ∃ h w1 cause, getDriver w = (inr h, w1) ∧
                    (driver_verifyConnectivity h (store w1)).1 = Some cause ∧
                    error = Error ("Neo4j connection failed: " +:+ message_of cause) ∧
                    events w' = events w1 ∧ sessions w' = sessions w1
  end.
Proof.
  unfold checkNeo4jConnectivity, mbind, M_bind.
  destruct (getDriver w) as [[error|h] w1]; [by left|].
  unfold try_catch, call, mret, M_ret, throw. simpl.
  destruct (driver_verifyConnectivity h (store w1)) as [[cause|] st] eqn:Hverify; simpl.
  - right. exists h, w1, cause. by rewrite Hverify.
  - split; [done|]. exists h, w1. by rewrite Hverify.
Qed.

(** What can come out of the frame around a session when the handler
    rethrows with a prefix: the prefixed error, or what [session.close()]
    threw in the [finally] block. *)
Lemma with_session_failure {A} h (body : nat → M Store A) prefix w error w' :
  with_session h body (λ cause, throw (Error (prefix +:+ message_of cause))) w
  = (inl error, w') →
  (∃ cause, error = Error (prefix +:+ message_of cause)) ∨
  (∃ sid st, (session_close sid st).1 = Some error).
Proof.
  unfold with_session, open_session.
  destruct (driver_session h (store w)) as [[cause|] st].
  { intros [= <- <-]. left. eauto. }
  unfold try_finally, try_catch, call.
  destruct (body (sessions w) _) as [[cause|x] w2]; simpl.
  - destruct (session_close (sessions w) (store w2)) as [[error'|] st2] eqn:Hclose.
    + intros [= <- <-]. right. exists (sessions w), (store w2). by rewrite Hclose.
    + intros [= <- <-]. left. eauto.
  - destruct (session_close (sessions w) (store w2)) as [[error'|] st2] eqn:Hclose.
    + intros [= <- <-]. right. exists (sessions w), (store w2). by rewrite Hclose.
    + done.
Qed.

(** When [runCypherQuery] throws, the error is the one of [getDriver]
    (nothing was attempted), or an [Error] whose message starts with
    "Failed to execute Cypher query: ", or what closing the session threw. *)
Theorem runCypherQuery_failure query params w error w' :
  runCypherQuery query params w = (inl error, w') →
  getDriver w = (inl error, w') ∨
  (∃ cause, error = Error ("Failed to execute Cypher query: " +:+ message_of cause)) ∨
  (∃ sid st, (session_close sid st).1 = Some error).
Proof.
  unfold runCypherQuery, mbind at 1, M_bind at 1.
  destruct (getDriver w) as [[error0|h] w1]; [intros [= <- <-]; by left|].
  intros Hfail. right. by apply with_session_failure in Hfail.
Qed.

(** When [getNeo4jSchema] throws, the error is the one of [getDriver], or
    an [Error] whose message starts with "Failed to fetch Neo4j schema: ",
    or what closing the session threw. *)
Theorem getNeo4jSchema_failure domain w error w' :
  getNeo4jSchema domain w = (inl error, w') →
  getDriver w = (inl error, w') ∨
  (∃ cause, error = Error ("Failed to fetch Neo4j schema: " +:+ message_of cause)) ∨
  (∃ sid st, (session_close sid st).1 = Some error).
Proof.
  unfold getNeo4jSchema, mbind at 1, M_bind at 1.
  destruct (getDriver w) as [[error0|h] w1]; [intros [= <- <-]; by left|].
  intros Hfail. right. by apply with_session_failure in Hfail.
Qed.

(** When [runCypherQuery] returns, it has opened exactly one session on
    the driver of the handle, run the query once, with the processed
    parameters, closed that session, and it returns the serialisation of
    the rows the store answered. *)
Theorem runCypherQuery_success query params w resultJsonString w' :
  runCypherQuery query params w = (inr resultJsonString, w') →
  ∃ h w1 st0 rows st1 st2,
    getDriver w = (inr h, w1) ∧
    driver_session h (store w1) = (None, st0) ∧
    session_run (sessions w1) query (processParams params) st0 = (inr rows, st1) ∧
    session_close (sessions w1) st1 = (None, st2) ∧
    resultJsonString = stringify_rows rows ∧
    w' = mkWorld (env w1) (driver w1) st2 (drivers w1) (S (sessions w1))
           (CloseSession (sessions w1) :: NewSession h (sessions w1) :: events w1).
Proof.
  unfold runCypherQuery, mbind at 1, M_bind at 1.
  destruct (getDriver w) as [[error0|h] w1]; [done|].
  unfold with_session, open_session.
  destruct (driver_session h (store w1)) as [[cause|] st0] eqn:Hopen; [done|].
  unfold try_finally, try_catch, mbind, M_bind, ask, call, mret, M_ret, throw. simpl.
  destruct (session_run (sessions w1) query (processParams params) st0)
    as [[cause|rows] st1] eqn:Hrun; simpl.
  - by destruct (session_close (sessions w1) st1) as [[error'|] st2].
  - destruct (session_close (sessions w1) st1) as [[error'|] st2] eqn:Hclose; [done|].
    intros [= <- <-]. by exists h, w1, st0, rows, st1, st2.
Qed.

(** The driver bookkeeping of a run: a driver that was created is in the
    handle or has been closed. *)
Lemma reachable_drivers_closed w :
  reachable w → ∀ h, NewDriver h ∈ events w → driver w = Some h ∨ CloseDriver h true ∈ events w.
Proof.
  induction 1 as [e st|op w Hreach IH]; [by intros h ?%elem_of_nil|].
  assert (∀ w', op_effect w w' →
            ∀ h, NewDriver h ∈ events w' → driver w' = Some h ∨ CloseDriver h true ∈ events w')
    as Heffect.
  { intros w' (_ & evs & Htrace & [(Hd & _ & Hev)|(Hd & _ & Hd' & _ & Hev)]) h;
      rewrite Hev, session_trace_new_driver, session_trace_close_driver by done.
    - rewrite Hd. apply IH.
    - intros [[= ->]|Hin]%elem_of_cons; [by left|].
      right. right. destruct (IH h Hin) as [?|?]; [congruence|done]. }
  destruct op as [|domain|query params|]; try (apply Heffect; by apply run_op_effect).
  simpl. unfold closeDriver. destruct (driver w) as [h0|] eqn:Hd.
  2:{ simpl. intros h Hin. destruct (IH h Hin) as [?|?]; [left; congruence|by right]. }
  destruct (driver_close h0 (store w)) as [[error|] st]; simpl; intros h.
  - intros [?|Hin]%elem_of_cons; [done|]. destruct (IH h Hin) as [?|?]; [by left|].
    right. by right.
  - intros [?|Hin]%elem_of_cons; [done|]. right.
    destruct (IH h Hin) as [[= ->]|?]; [left|by right].
Qed.

Lemma reachable_sessions_released w : reachable w → sessions_released (events w).
Proof.
  induction 1 as [e st|op w Hreach IH].
  { intros h sid later earlier Heq. by destruct later. }
  assert (∀ w', op_effect w w' → sessions_released (events w')) as Heffect.
  { intros w' (evs & -> & Hevs)%op_effect_released. by apply sessions_released_app. }
  destruct op as [|domain|query params|]; try (apply Heffect; by apply run_op_effect).
  simpl. unfold closeDriver. destruct (driver w) as [h0|]; [|done].
  destruct (driver_close h0 (store w)) as [[error|] st]; simpl;
    apply (sessions_released_app [_]); auto using sessions_released_close_driver.
Qed.

(** No driver leaks: in every state the process can reach, each driver
    that was ever created is the one in the handle or has been closed, so
    at most one driver is open at any time. *)
Theorem no_driver_leak w :
  reachable w →
  ∀ h, NewDriver h ∈ events w → driver w = Some h ∨ CloseDriver h true ∈ events w.
Proof. apply reachable_drivers_closed. Qed.

(** No session leaks: between operations, in every state the process can
    reach, every session that was ever opened has had [close()] called on
    it, whether the operations returned or threw. *)
Theorem no_session_leak w : reachable w → sessions_released (events w).
Proof. apply reachable_sessions_released. Qed.

Lemma reachable_check w : reachable w → reachable (checkNeo4jConnectivity w).2.
Proof. apply (reachable_step OpCheckConnectivity). Qed.

Lemma reachable_close w : reachable w → reachable (closeDriver w).2.
Proof. apply (reachable_step OpCloseDriver). Qed.

(** The connectivity check at start-up: without a complete configuration
    nothing happens, with one the driver is created and verified. *)
Lemma checkNeo4jConnectivity_initial e (st : Store) :
  (¬ configured (initial e st) ∧
   ∃ error, checkNeo4jConnectivity (initial e st) = (inl error, initial e st)) ∨
  (configured (initial e st) ∧
   checkNeo4jConnectivity (initial e st)
   = match driver_verifyConnectivity 0 st with
     | (Some cause, st1) =>
         (inl (Error ("Neo4j connection failed: " +:+ message_of cause)),
          mkWorld e (Some 0%nat) st1 1 0 [NewDriver 0])
     | (None, st1) => (inr true, mkWorld e (Some 0%nat) st1 1 0 [NewDriver 0])
     end).
Proof.
  unfold checkNeo4jConnectivity, mbind, M_bind.
  destruct (getDriver (initial e st)) as [r w0] eqn:Hget.
  destruct (getDriver_cases _ _ _ Hget) as [->|(_ & Hconf & -> & ->)].
  - left. destruct r as [error|h]; [|by apply getDriver_handle in Hget].
    split; [|eauto]. intros Hconf. by rewrite getDriver_create in Hget.
  - right. split; [done|].
    unfold try_catch, call, mret, M_ret, throw. simpl.
    by destruct (driver_verifyConnectivity 0 st) as [[cause|] st1].
Qed.

(** Start-up. [main] ends serving or with exit code 1, never otherwise.
    It serves only if the configuration is complete, the connectivity
    check passed and the transport connected; the handle then holds the
    one driver created. Without a complete configuration it exits before
    anything is created. When the connectivity check fails it exits
    without closing anything. When the check passed and
    [server.connect] fails, it calls [closeDriver] on the driver before
    it exits: the handle is null if [close()] completed. *)
Theorem main_outcome connected e (st : Store) :
  match main connected (initial e st) with
  | (Serving, w') =>
      connected = None ∧ configured (initial e st) ∧
      driver w' = Some 0%nat ∧ events w' = [NewDriver 0] ∧
      (driver_verifyConnectivity 0 st).1 = None
  | (Exited code, w') =>
      code = 1%nat ∧
      (¬ configured (initial e st) → w' = initial e st) ∧
      match checkNeo4jConnectivity (initial e st) with
      | (inl _, w1) => w' = w1 ∧ ∀ h resolved, CloseDriver h resolved ∉ events w'
      | (inr _, w1) =>
          connected ≠ None ∧
          ∃ resolved,
            events w' = [CloseDriver 0 resolved; NewDriver 0] ∧
            (resolved = true ↔ (driver_close 0 (store w1)).1 = None) ∧
            driver w' = (if resolved then None else Some 0%nat)
      end
  | (Unhandled _, _) => False
  end.
Proof.
  unfold main.
  destruct (checkNeo4jConnectivity_initial e st) as [[Hconf [error ->]]|[Hconf ->]].
  { split_and!; try done. by intros h resolved ?%elem_of_nil. }
  destruct (driver_verifyConnectivity 0 st) as [[cause|] st1] eqn:Hverify.
  { split_and!; try done. intros h resolved [?|?%elem_of_nil]%elem_of_cons; done. }
  destruct connected as [failure|]; [|by split_and!].
  split_and!; try done. unfold closeDriver. simpl.
  destruct (driver_close 0 st1) as [[error|] st2]; simpl.
  - exists false. by split_and!.
  - exists true. by split_and!.
Qed.

(** Shutdown. From any state the process can reach, [cleanup] exits with
    code 0 only after the driver has been closed: the handle is null and
    every driver ever created is closed. If [driver.close()] throws, the
    handler's promise rejects and the exit is not reached. *)
Theorem cleanup_releases w :
  reachable w →
  match cleanup w with
  | (Exited code, w') =>
      code = 0%nat ∧ driver w' = None ∧
      ∀ h, NewDriver h ∈ events w' → CloseDriver h true ∈ events w'
  | (Unhandled error, w') =>
      ∃ h, driver w = Some h ∧ (driver_close h (store w)).1 = Some error
  | (Serving, _) => False
  end.
Proof.
  intros Hreach. pose proof (closeDriver_outcome w) as Hout.
  pose proof (reachable_drivers_closed _ (reachable_close w Hreach)) as Hclosed.
  unfold cleanup. destruct (closeDriver w) as [[error|[]] w'].
  - destruct Hout as (h & Hd & _ & Hclose). eauto.
  - split_and!; [done|done|]. intros h Hin.
    destruct (Hclosed h Hin) as [Hd|?]; [|done]. simpl in Hd. congruence.
Qed.

End ClientExtras.

(** ** The same properties on the example libraries *)

Lemma getDriver_missing_details_witness :
  let w := mkWorld (mkEnv (Some "bolt://db") (Some "neo4j") (Some "")) (Some 0%nat)
             0%nat 1 0 [NewDriver 0] in
  getDriver w = (inl (Error MISSING_DETAILS), w).
Proof. intros w. apply getDriver_missing_details. reflexivity. Defined.

Lemma getDriver_idempotent_witness :
  getDriver (getDriver (initial demo_env 0%nat)).2
  = (inr 0%nat, (getDriver (initial demo_env 0%nat)).2).
Proof. apply (getDriver_idempotent (initial demo_env 0%nat)). reflexivity. Defined.

Lemma runCypherQuery_failure_witness :
  getDriver demo_started
  = (inl (Error "Failed to execute Cypher query: Invalid input"),
     (runCypherQuery "" [] demo_started).2) ∨
  (∃ cause, Error "Failed to execute Cypher query: Invalid input"
            = Error ("Failed to execute Cypher query: " +:+ message_of cause)) ∨
  (∃ sid st, (session_close sid st).1
             = Some (Error "Failed to execute Cypher query: Invalid input")).
Proof. apply (runCypherQuery_failure "" [] demo_started). reflexivity. Defined.

(** A store that answers with a label named "constructor": the schema
    cannot be fetched. *)
Lemma getNeo4jSchema_failure_witness :
  let w := initial demo_env 10%nat in
  let error := Error "Failed to fetch Neo4j schema: nodeProperties[label] is not iterable" in
  @getDriver nat flaky_library w
  = (inl error, (@getNeo4jSchema nat flaky_library DomUndefined w).2) ∨
  (∃ cause, error = Error ("Failed to fetch Neo4j schema: " +:+ message_of cause)) ∨
  (∃ sid st, (@session_close nat flaky_library sid st).1 = Some error).
Proof.
  intros w error.
  apply (@getNeo4jSchema_failure nat flaky_library DomUndefined w). reflexivity.
Defined.

Lemma runCypherQuery_success_witness :
  ∃ h w1 st0 rows st1 st2,
    getDriver demo_started = (inr h, w1) ∧
    driver_session h (store w1) = (None, st0) ∧
    session_run (sessions w1) "RETURN $n" (processParams [("n", JNumber (Finite (3 # 2)))]) st0
    = (inr rows, st1) ∧
    session_close (sessions w1) st1 = (None, st2) ∧
    "[...]" = stringify_rows rows ∧
    (runCypherQuery "RETURN $n" [("n", JNumber (Finite (3 # 2)))] demo_started).2
    = mkWorld (env w1) (driver w1) st2 (drivers w1) (S (sessions w1))
        (CloseSession (sessions w1) :: NewSession h (sessions w1) :: events w1).
Proof.
  apply (runCypherQuery_success "RETURN $n" [("n", JNumber (Finite (3 # 2)))] demo_started).
  reflexivity.
Defined.

Lemma no_driver_leak_witness :
  let w := run_op (OpGetSchema (DomString "code")) (run_op OpCloseDriver demo_started) in
  (driver w = Some 0%nat ∨ CloseDriver 0 true ∈ events w) ∧
  (driver w = Some 1%nat ∨ CloseDriver 1 true ∈ events w).
Proof.
  intros w.
  assert (reachable w) as Hreach.
  { do 2 apply reachable_step. apply (reachable_step OpCheckConnectivity), reachable_initial. }
  split; apply (no_driver_leak w Hreach); apply (bool_decide_unpack _); by vm_compute.
Defined.

Lemma no_session_leak_witness :
  sessions_released
    (events (run_op (OpRunQuery "" None) (run_op (OpGetSchema DomUndefined) demo_started))).
Proof.
  apply no_session_leak.
  do 2 apply reachable_step. apply (reachable_step OpCheckConnectivity), reachable_initial.
Defined.

Lemma cleanup_releases_witness :
  match cleanup demo_started with
  | (Exited code, w') =>
      code = 0%nat ∧ driver w' = None ∧
      ∀ h, NewDriver h ∈ events w' → CloseDriver h true ∈ events w'
  | (Unhandled error, w') =>
      ∃ h, driver demo_started = Some h ∧
           (driver_close h (store demo_started)).1 = Some error
  | (Serving, _) => False
  end.
Proof.
  apply (cleanup_releases demo_started).
  apply (reachable_step OpCheckConnectivity), reachable_initial.
Defined.

(** A teardown on a store that no longer answers throws and keeps the
    driver in the handle. *)
Example closeDriver_failure :
  let w := mkWorld demo_env (Some 0%nat) 0%nat 1 0 [NewDriver 0] in
  @closeDriver nat flaky_library w
  = (inl (Error "Connection lost"),
     mkWorld demo_env (Some 0%nat) 0%nat 1 0 [CloseDriver 0 false; NewDriver 0]).
Proof. reflexivity. Qed.

(** Start-up against the example store serves; with a URI the library
    rejects it exits with code 1 and nothing was created. *)
Example main_serves :
  (main None (initial demo_env 0%nat)).1 = Serving ∧
  main None (initial (mkEnv (Some "http://db") (Some "neo4j") (Some "secret")) 0%nat)
  = (Exited 1, initial (mkEnv (Some "http://db") (Some "neo4j") (Some "secret")) 0%nat).
Proof. split; reflexivity. Qed.

(** ** A schema that was fetched *)

(** When [getNeo4jSchema] returns, it has opened exactly one session on
    the driver of the handle, run the four introspection queries on it in
    their fixed order, each on the store as the previous one left it,
    closed that session, and it returns the serialisation of [synthesize]
    on the normalised rows. *)
Theorem getNeo4jSchema_success {Store : Type} `{!Library Store}
    domain (w : World Store) schemaJsonString w' :
  getNeo4jSchema domain w = (inr schemaJsonString, w') →
  ∃ h w1 st0 nodeRows st1 nodePropertyRows st2 relRows st3 relPropertyRows st4 lp lrp st5,
    getDriver w = (inr h, w1) ∧
    driver_session h (store w1) = (None, st0) ∧
    session_run_counts (sessions w1) NodeCounts st0 = (inr nodeRows, st1) ∧
    session_run_properties (sessions w1) NodeProperties st1 = (inr nodePropertyRows, st2) ∧
    session_run_counts (sessions w1) RelationshipCounts st2 = (inr relRows, st3) ∧
    session_run_properties (sessions w1) RelationshipProperties st3
    = (inr relPropertyRows, st4) ∧
    collect_properties "nodeProperties[label]" nodePropertyRows = inr lp ∧
    collect_properties "relationshipProperties[relType]" relPropertyRows = inr lrp ∧
    session_close (sessions w1) st4 = (None, st5) ∧
    schemaJsonString
    = stringify_schema
        (synthesize (to_type_counts nodeRows) lp (to_type_counts relRows) lrp domain) ∧
    w' = mkWorld (env w1) (driver w1) st5 (drivers w1) (S (sessions w1))
           (CloseSession (sessions w1) :: NewSession h (sessions w1) :: events w1).
Proof.
  unfold getNeo4jSchema, mbind at 1, M_bind at 1.
  destruct (getDriver w) as [[error0|h] w1]; [done|].
  unfold with_session, open_session.
  destruct (driver_session h (store w1)) as [[cause|] st0] eqn:Hopen; [done|].
  unfold try_finally, try_catch, schema_body, mbind, M_bind, ask, lift, call,
    mret, M_ret, throw. simpl.
  destruct (session_run_counts (sessions w1) NodeCounts st0)
    as [[cause|nodeRows] st1] eqn:Hq1; simpl.
  { by destruct (session_close (sessions w1) st1) as [[error'|] ?]. }
  destruct (session_run_properties (sessions w1) NodeProperties st1)
    as [[cause|nodePropertyRows] st2] eqn:Hq2; simpl.
  { by destruct (session_close (sessions w1) st2) as [[error'|] ?]. }
  destruct (session_run_counts (sessions w1) RelationshipCounts st2)
    as [[cause|relRows] st3] eqn:Hq3; simpl.
  { by destruct (session_close (sessions w1) st3) as [[error'|] ?]. }
  destruct (session_run_properties (sessions w1) RelationshipProperties st3)
    as [[cause|relPropertyRows] st4] eqn:Hq4; simpl.
  { by destruct (session_close (sessions w1) st4) as [[error'|] ?]. }
  destruct (collect_properties _ nodePropertyRows) as [cause|lp] eqn:Hlp; simpl.
  { by destruct (session_close (sessions w1) st4) as [[error'|] ?]. }
  destruct (collect_properties _ relPropertyRows) as [cause|lrp] eqn:Hlrp; simpl.
  { by destruct (session_close (sessions w1) st4) as [[error'|] ?]. }
  destruct (session_close (sessions w1) st4) as [[error'|] st5] eqn:Hclose; [done|].
  intros [= <- <-].
  exists h, w1, st0, nodeRows, st1, nodePropertyRows, st2, relRows, st3,
    relPropertyRows, st4, lp, lrp, st5.
  by split_and!.
Qed.

Lemma getNeo4jSchema_success_witness :
  ∃ h w1 st0 nodeRows st1 nodePropertyRows st2 relRows st3 relPropertyRows st4 lp lrp st5,
    getDriver demo_started = (inr h, w1) ∧
    driver_session h (store w1) = (None, st0) ∧
    session_run_counts (sessions w1) NodeCounts st0 = (inr nodeRows, st1) ∧
    session_run_properties (sessions w1) NodeProperties st1 = (inr nodePropertyRows, st2) ∧
    session_run_counts (sessions w1) RelationshipCounts st2 = (inr relRows, st3) ∧
    session_run_properties (sessions w1) RelationshipProperties st3
    = (inr relPropertyRows, st4) ∧
    collect_properties "nodeProperties[label]" nodePropertyRows = inr lp ∧
    collect_properties "relationshipProperties[relType]" relPropertyRows = inr lrp ∧
    session_close (sessions w1) st4 = (None, st5) ∧
    "{...}"
    = stringify_schema
        (synthesize (to_type_counts nodeRows) lp (to_type_counts relRows) lrp
           (DomString "media")) ∧
    (getNeo4jSchema (DomString "media") demo_started).2
    = mkWorld (env w1) (driver w1) st5 (drivers w1) (S (sessions w1))
        (CloseSession (sessions w1) :: NewSession h (sessions w1) :: events w1).
Proof.
  apply (getNeo4jSchema_success (DomString "media") demo_started).
  reflexivity.
Defined.
